(** * OpenOT: the text OT type, the in-memory backend and the server

    A shallow embedding of
    - [packages/core/src/types/text.ts]       (the Retain/Insert/Delete algebra),
    - [packages/core/src/interfaces.ts]       (the [OTType] interface),
    - [packages/server/src/interfaces.ts]     (records and backend adapters),
    - [packages/server/src/memory-adapter.ts] (the [MemoryBackend]),
    - [packages/server/src/server.ts]         (the [Server]),
    followed by the properties of these functions.

    Conventions.  A JavaScript [number] is an integer of [Z] (no fractions,
    no [NaN]); [Infinity] occurs only as the length of the implicit retain
    and is the [None] of an [option Z].  Array indices and array lengths are
    [nat].  A JavaScript string is the list of its code units, and its
    [length] the length of the list.  A function that may [throw] returns a
    [result]; an [async] method passes the state of its object along. *)

From Stdlib Require Import ZArith Ascii String Lia.
From stdpp Require Import base option list strings gmap.

Set Default Proof Using "Type".

(** ** Errors and results *)

(** One constructor for each [throw new Error(...)] of the sources. *)
Inductive error : Type :=
  | OpMalformed          (* checkOp: "Operation component must be ..." *)
  | OpOutOfBounds        (* apply: "Operation goes past the end of the string." *)
  | DocumentNotFound     (* memory adapter: "Document ... not found" *)
  | TypeUnknown          (* server: "Unknown type: ..." *)
  | RevisionFromFuture   (* server: "Invalid revision: ... > ..." *)
  | ConcurrencyConflict  (* memory adapter: "Concurrency error: ..." *)
  | Diverged.            (* a [while] loop that did not exit; never produced,
                            see [transform_sized] and [compose_total] *)

Inductive result (A : Type) : Type :=
  | Ok (x : A)
  | Err (e : error).
Arguments Ok {A} x.
Arguments Err {A} e.

(** [result] is used with stdpp's monadic notations [x ← m; k] and [m;; k]. *)
#[global] Instance result_ret : MRet result := λ A x, Ok x.
#[global] Instance result_bind : MBind result := λ A B k m,
  match m with
  | Ok x => k x
  | Err e => Err e
  end.

(** ** JavaScript strings and arrays *)

Abbreviation jsstring := (list ascii).

(** A string literal as its code units. *)
Definition str (s : string) : jsstring := list_ascii_of_string s.

Section js.
Context {A : Type}.

(** The relative-index rule shared by [slice] and [substr]: a negative
    index counts from the end, and the outcome is clamped to [0, len]. *)
Definition js_rel_index (len k : Z) : Z :=
  if (k <? 0)%Z then Z.max (len + k) 0 else Z.min k len.

(** [l.slice(start, end)]; [None] is an omitted [end]. *)
Definition js_slice (l : list A) (start : Z) (end_ : option Z) : list A :=
  let len := Z.of_nat (length l) in
  let from := js_rel_index len start in
  let to := match end_ with Some e => js_rel_index len e | None => len end in
  take (Z.to_nat (to - from)) (drop (Z.to_nat from) l).

(** [l.substr(start, count)]. *)
Definition js_substr (l : list A) (start count : Z) : list A :=
  let len := Z.of_nat (length l) in
  let from := js_rel_index len start in
  let n := Z.min (Z.max count 0) (len - from) in
  take (Z.to_nat n) (drop (Z.to_nat from) l).
End js.

(** ** text.ts: components *)

(** [OpComponent = RetainOp | InsertOp | DeleteOp]; [Unknown] is an object
    with none of the keys [r], [i], [d], which [checkOp] rejects at run time. *)
Inductive OpComponent : Type :=
  | Retain (r : Z)
  | Insert (i : jsstring)
  | Delete (d : Z)
  | Unknown.

Abbreviation TextOperation := (list OpComponent).

Definition isInsert (op : OpComponent) : bool :=
  match op with Insert _ => true | _ => false end.

Definition isRetain (op : OpComponent) : bool :=
  match op with Retain _ => true | _ => false end.

Definition isDelete (op : OpComponent) : bool :=
  match op with Delete _ => true | _ => false end.

Definition getLength (op : OpComponent) : Z :=
  match op with
  | Insert i => Z.of_nat (length i)
  | Retain r => r
  | Delete d => d
  | Unknown => 0
  end.

(** [append(op, component)]: drop an empty component, merge it into the last
    component of [op] when both have the same kind, push it otherwise.  The
    source updates the last component in place; [op] is the fresh array under
    construction, so the update is the list update at index [length op - 1]. *)
Definition append (op : TextOperation) (component : OpComponent) : TextOperation :=
  match component with
  | Retain 0 => op
  | Insert [] => op
  | Delete 0 => op
  | _ =>
    match op !! (length op - 1) with
    | None => op ++ [component]
    | Some last =>
      match last, component with
      | Retain a, Retain b => <[length op - 1 := Retain (a + b)]> op
      | Insert a, Insert b => <[length op - 1 := Insert (a ++ b)]> op
      | Delete a, Delete b => <[length op - 1 := Delete (a + b)]> op
      | _, _ => op ++ [component]
      end
    end
  end.

(** [normalize(op)]: append every component to a fresh array. *)
Definition normalize (op : TextOperation) : TextOperation :=
  foldl append [] op.

(** [checkOp(op)]: every component carries one of the three keys. *)
Fixpoint checkOp (op : TextOperation) : result unit :=
  match op with
  | [] => Ok tt
  | c :: op' =>
    if negb (isInsert c) && negb (isRetain c) && negb (isDelete c)
    then Err OpMalformed
    else checkOp op'
  end.

(** ** interfaces.ts: the OT type interface *)

Inductive Side : Type := Left | Right.

Module Interfaces.
Record OTType (Snapshot Op : Type) : Type := {
  name : string;
  create : Snapshot;
  apply : Snapshot → Op → result Snapshot;
  transform : Op → Op → Side → result Op;
  compose : Op → Op → result Op;
}.
Arguments name {Snapshot Op} _.
Arguments create {Snapshot Op} _.
Arguments apply {Snapshot Op} _ _ _.
Arguments transform {Snapshot Op} _ _ _ _.
Arguments compose {Snapshot Op} _ _ _.
End Interfaces.
Abbreviation OTType := Interfaces.OTType.

(** ** text.ts: the text type *)

Module TextType.

Definition name : string := "text".

Definition create : jsstring := [].

(** The body of [for (const component of op)] in [apply], on the pair of
    the loop variables [(result, index)]. *)
Definition apply_component (snapshot : jsstring) (acc : jsstring * Z)
    (component : OpComponent) : result (jsstring * Z) :=
  let '(result, index) := acc in
  let len := Z.of_nat (length snapshot) in
  match component with
  | Insert i => Ok (result ++ i, index)
  | Retain r =>
    if (index + r >? len)%Z then Err OpOutOfBounds
    else Ok (result ++ js_slice snapshot index (Some (index + r)%Z), (index + r)%Z)
  | Delete d =>
    if (index + d >? len)%Z then Err OpOutOfBounds
    else Ok (result, (index + d)%Z)
  | Unknown => Ok (result, index)
  end.

Fixpoint apply_loop (snapshot : jsstring) (op : TextOperation)
    (acc : jsstring * Z) : result (jsstring * Z) :=
  match op with
  | [] => Ok acc
  | component :: op' =>
    acc' ← apply_component snapshot acc component;
    apply_loop snapshot op' acc'
  end.

Definition apply (snapshot : jsstring) (op : TextOperation) : result jsstring :=
  checkOp op;;
  '(result, index) ← apply_loop snapshot op ([], 0%Z);
  if (index <? Z.of_nat (length snapshot))%Z
  then Ok (result ++ js_slice snapshot index None)
  else Ok result.

(** The variables of the [while] loops of [transform] and [compose]. *)
Record cursor : Type := Cursor {
  iA : nat;
  iB : nat;
  offsetA : Z;
  offsetB : Z;
  newOp : TextOperation;
}.

Definition start : cursor :=
  {| iA := 0; iB := 0; offsetA := 0; offsetB := 0; newOp := [] |}.

(** [cA = iA < lenA ? opA[iA] : implicitRetain] is the lookup [opA !! iA],
    where [None] stands for [implicitRetain = { r: Infinity }].  A length
    of such a component is an integer or [Infinity] ([None]). *)
Definition isInsert' (c : option OpComponent) : bool :=
  match c with Some c => isInsert c | None => false end.
Definition isRetain' (c : option OpComponent) : bool :=
  match c with Some c => isRetain c | None => true end.
Definition isDelete' (c : option OpComponent) : bool :=
  match c with Some c => isDelete c | None => false end.
Definition getLength' (c : option OpComponent) : option Z :=
  getLength <$> c.

(** [x - off] and [Math.min] with [Infinity]. *)
Definition xsub (x : option Z) (off : Z) : option Z := (λ n, (n - off)%Z) <$> x.
Definition xmin (x y : option Z) : option Z :=
  match x, y with
  | Some a, Some b => Some (Z.min a b)
  | Some a, None => Some a
  | None, Some b => Some b
  | None, None => None
  end.
(** [off >= x]. *)
Definition xge (off : Z) (x : option Z) : bool :=
  match x with Some n => (n <=? off)%Z | None => false end.

(** The text of an insert component, [cA.i]. *)
Definition text_of (c : option OpComponent) : jsstring :=
  match c with Some (Insert i) => i | _ => [] end.

(** "Advance offsets" and "Advance iterators if fully consumed", the common
    tail of both loop bodies; [minLen] is finite inside the loops. *)
Definition advance (opA opB : TextOperation) (cA cB : option OpComponent)
    (minLen : Z) (out : TextOperation) (st : cursor) : cursor :=
  let offsetA' := (offsetA st + minLen)%Z in
  let offsetB' := (offsetB st + minLen)%Z in
  let doneA := bool_decide (iA st < length opA) && xge offsetA' (getLength' cA) in
  let doneB := bool_decide (iB st < length opB) && xge offsetB' (getLength' cB) in
  {| iA := if doneA then iA st + 1 else iA st;
     iB := if doneB then iB st + 1 else iB st;
     offsetA := if doneA then 0%Z else offsetA';
     offsetB := if doneB then 0%Z else offsetB';
     newOp := out |}.

(** One iteration of the [while] loop of [transform]. *)
Definition transform_body (opA opB : TextOperation) (side : Side)
    (st : cursor) : cursor :=
  let cA := opA !! iA st in
  let cB := opB !! iB st in
  if isInsert' cA then
    if isInsert' cB then
      match side with
      | Left =>
        {| iA := iA st + 1; iB := iB st; offsetA := offsetA st; offsetB := offsetB st;
           newOp := append (newOp st) (Insert (text_of cA)) |}
      | Right =>
        {| iA := iA st; iB := iB st + 1; offsetA := offsetA st; offsetB := offsetB st;
           newOp := append (newOp st) (Retain (default 0%Z (getLength' cB))) |}
      end
    else
      {| iA := iA st + 1; iB := iB st; offsetA := offsetA st; offsetB := offsetB st;
         newOp := append (newOp st) (Insert (text_of cA)) |}
  else if isInsert' cB then
    {| iA := iA st; iB := iB st + 1; offsetA := offsetA st; offsetB := offsetB st;
       newOp := append (newOp st) (Retain (default 0%Z (getLength' cB))) |}
  else
    let lengthA := xsub (getLength' cA) (offsetA st) in
    let lengthB := xsub (getLength' cB) (offsetB st) in
    match xmin lengthA lengthB with
    | None => st (* both operations exhausted: the loop has exited *)
    | Some minLen =>
      let out :=
        if isRetain' cA && isRetain' cB then append (newOp st) (Retain minLen)
        else if isDelete' cA && isRetain' cB then append (newOp st) (Delete minLen)
        else newOp st in
      advance opA opB cA cB minLen out st
    end.

(** [while (iA < lenA || iB < lenB) body]; [None] when the fuel runs out. *)
Fixpoint while (fuel : nat) (opA opB : TextOperation)
    (body : cursor → cursor) (st : cursor) : option cursor :=
  if bool_decide (iA st < length opA) || bool_decide (iB st < length opB) then
    match fuel with
    | O => None
    | S fuel' => while fuel' opA opB body (body st)
    end
  else Some st.

(** Every iteration moves [iA] or [iB] forward, so [lenA + lenB] iterations
    are enough. *)
Definition transform (opA opB : TextOperation) (side : Side)
    : result TextOperation :=
  checkOp opA;;
  checkOp opB;;
  match while (length opA + length opB) opA opB (transform_body opA opB side) start with
  | Some st => Ok (normalize (newOp st))
  | None => Err Diverged
  end.

(** One iteration of the [while] loop of [compose]. *)
Definition compose_body (opA opB : TextOperation) (st : cursor) : cursor :=
  let cA := opA !! iA st in
  let cB := opB !! iB st in
  if isDelete' cA then
    {| iA := iA st + 1; iB := iB st; offsetA := offsetA st; offsetB := offsetB st;
       newOp := append (newOp st) (Delete (default 0%Z (getLength' cA))) |}
  else if isInsert' cB then
    {| iA := iA st; iB := iB st + 1; offsetA := offsetA st; offsetB := offsetB st;
       newOp := append (newOp st) (Insert (text_of cB)) |}
  else
    let lengthA := xsub (getLength' cA) (offsetA st) in
    let lengthB := xsub (getLength' cB) (offsetB st) in
    match xmin lengthA lengthB with
    | None => st (* both operations exhausted: the loop has exited *)
    | Some minLen =>
      let out :=
        if isRetain' cA then
          if isRetain' cB then append (newOp st) (Retain minLen)
          else if isDelete' cB then append (newOp st) (Delete minLen)
          else newOp st
        else if isInsert' cA then
          if isRetain' cB
          then append (newOp st) (Insert (js_substr (text_of cA) (offsetA st) minLen))
          else newOp st
        else newOp st in
      advance opA opB cA cB minLen out st
    end.

Definition compose (opA opB : TextOperation) : result TextOperation :=
  checkOp opA;;
  checkOp opB;;
  match while (length opA + length opB) opA opB (compose_body opA opB) start with
  | Some st => Ok (normalize (newOp st))
  | None => Err Diverged
  end.

(** The object [TextType: OTType<string, TextOperation>]. *)
Definition OT : OTType jsstring TextOperation :=
  {| Interfaces.name := name;
     Interfaces.create := create;
     Interfaces.apply := apply;
     Interfaces.transform := transform;
     Interfaces.compose := compose |}.

End TextType.


(** ** Asynchronous methods

    An [async] method runs on the state of its object; it returns the state
    it leaves behind together with the value of the promise, [Err] for a
    rejected one.  Calls on one object run one after the other. *)

Definition async (S A : Type) : Type := S → S * result A.

#[global] Instance async_ret {S} : MRet (async S) := λ A x s, (s, Ok x).
#[global] Instance async_bind {S} : MBind (async S) := λ A B k m s,
  match m s with
  | (s', Ok x) => k x s'
  | (s', Err e) => (s', Err e)
  end.

Definition throw {S A} (e : error) : async S A := λ s, (s, Err e).
Definition gets {S A} (f : S → A) : async S A := λ s, (s, Ok (f s)).
Definition settle {S A} (r : result A) : async S A := λ s, (s, r).

(** ** server/src/interfaces.ts *)

Record DocumentRecord (Snapshot : Type) : Type := {
  type : string;
  v : Z;
  data : Snapshot;
}.
Arguments type {Snapshot} _.
Arguments v {Snapshot} _.
Arguments data {Snapshot} _.

Class IBackendAdapter (B Snapshot Op : Type) : Type := BackendAdapter {
  getRecord : string → async B (DocumentRecord Snapshot);
  getHistory : string → Z → option Z → async B (list Op);
  saveOperation : string → Op → Z → async B unit;
}.

(** ** server/src/memory-adapter.ts *)

Module MemoryBackend.
Section MemoryBackend.
Context {Snapshot Op : Type}.

(** The two private maps of the class. *)
Record t : Type := {
  documents : gmap string (DocumentRecord Snapshot);
  history : gmap string (list Op);
}.

(** [new MemoryBackend()]. *)
Definition new : t := {| documents := ∅; history := ∅ |}.

Definition createDocument (docId type : string) (initialSnapshot : Snapshot)
    : async t unit := λ this,
  ({| documents := <[docId := {| type := type; v := 0; data := initialSnapshot |}]>
                     (documents this);
      history := <[docId := []]> (history this) |},
   Ok tt).

(** The record handed out is the stored one. *)
Definition getRecord (docId : string) : async t (DocumentRecord Snapshot) := λ this,
  match documents this !! docId with
  | None => (this, Err DocumentNotFound)
  | Some doc => (this, Ok doc)
  end.

Definition getHistory (docId : string) (start : Z) (end_ : option Z)
    : async t (list Op) := λ this,
  let ops := default [] (history this !! docId) in
  (this, Ok (js_slice ops start end_)).

(** [ops.push(op)] changes the array stored in [history]; when the map has
    no array for [docId], [ops] is a fresh array that is dropped.
    [doc.v = newRevision] changes the stored record. *)
Definition saveOperation (docId : string) (op : Op) (newRevision : Z)
    : async t unit := λ this,
  match documents this !! docId with
  | None => (this, Err DocumentNotFound)
  | Some doc =>
    if bool_decide ((v doc + 1)%Z ≠ newRevision) then (this, Err ConcurrencyConflict)
    else
      ({| documents := <[docId := {| type := type doc; v := newRevision; data := data doc |}]>
                         (documents this);
          history := match history this !! docId with
                     | Some ops => <[docId := ops ++ [op]]> (history this)
                     | None => history this
                     end |},
       Ok tt)
  end.

#[global] Instance adapter : IBackendAdapter t Snapshot Op :=
  BackendAdapter t Snapshot Op getRecord getHistory saveOperation.

End MemoryBackend.
Arguments t : clear implicits.
End MemoryBackend.

(** ** server/src/server.ts *)

Module Server.
Section Server.
Context {B Snapshot Op : Type} `{!IBackendAdapter B Snapshot Op}.

(** The fields [backend] and [types] of the class. *)
Record t : Type := {
  backend : B;
  types : gmap string (OTType Snapshot Op);
}.

(** [new Server(backend)]. *)
Definition new (backend : B) : t := {| backend := backend; types := ∅ |}.

(** A call [await this.backend.m(...)]. *)
Definition on_backend {A} (m : async B A) : async t A := λ this,
  let '(backend', r) := m (backend this) in
  ({| backend := backend'; types := types this |}, r).

Definition registerType (type : OTType Snapshot Op) : async t unit := λ this,
  ({| backend := backend this;
      types := <[Interfaces.name type := type]> (types this) |},
   Ok tt).

(** [for (const pastOp of history)
       finalOp = type.transform(finalOp, pastOp, "right")]. *)
Fixpoint catch_up (type : OTType Snapshot Op) (finalOp : Op) (history : list Op)
    : result Op :=
  match history with
  | [] => Ok finalOp
  | pastOp :: history' =>
    finalOp' ← Interfaces.transform type finalOp pastOp Right;
    catch_up type finalOp' history'
  end.

(** The object [{ op, revision }] that [submitOperation] returns. *)
Record Submitted : Type := { op : Op; revision : Z }.

(** [record] is read three times, at [revision > record.v], at
    [revision < record.v] and at [record.v + 1], all of them before
    [saveOperation] changes the stored record; it is the value that
    [getRecord] returned. *)
Definition submitOperation (docId : string) (op : Op) (revision : Z)
    : async t Submitted :=
  record ← on_backend (getRecord docId);
  type ← gets (λ this, types this !! type record);
  match type with
  | None => throw TypeUnknown
  | Some type =>
    if (revision >? v record)%Z then throw RevisionFromFuture
    else
      finalOp ← (if (revision <? v record)%Z then
                   history ← on_backend (getHistory docId revision None);
                   settle (catch_up type op history)
                 else mret op);
      let newRevision := (v record + 1)%Z in
      on_backend (saveOperation docId finalOp newRevision);;
      mret {| op := finalOp; revision := newRevision |}
  end.

End Server.
Arguments t : clear implicits.
Arguments Submitted : clear implicits.
End Server.

(** ** The operations as edits of a string *)

(** What a list of components does to the text [s] in front of it: the edited
    text, followed by the part of [s] that the components do not reach.
    [None] when a [Retain] or a [Delete] asks for more than [s] has, or when
    a component has a negative size or none of the three keys. *)
Fixpoint sem (op : TextOperation) (s : jsstring) : option jsstring :=
  match op with
  | [] => Some s
  | Retain n :: op' =>
    if bool_decide (0 ≤ n ≤ Z.of_nat (length s))%Z
    then (take (Z.to_nat n) s ++.) <$> sem op' (drop (Z.to_nat n) s)
    else None
  | Insert t :: op' => (t ++.) <$> sem op' s
  | Delete n :: op' =>
    if bool_decide (0 ≤ n ≤ Z.of_nat (length s))%Z
    then sem op' (drop (Z.to_nat n) s)
    else None
  | Unknown :: _ => None
  end.

(** The part of the operation [op] that the cursor [(i, off)] of a loop has
    still to read: the component at index [i] less its first [off] units,
    and the components after it. *)
Definition shrink (c : OpComponent) (off : Z) : OpComponent :=
  match c with
  | Retain r => Retain (r - off)
  | Insert i => Insert (drop (Z.to_nat off) i)
  | Delete d => Delete (d - off)
  | Unknown => Unknown
  end.

Definition rest (op : TextOperation) (i : nat) (off : Z) : TextOperation :=
  match op !! i with
  | Some c => shrink c off :: drop (S i) op
  | None => []
  end.

(** Reading [k] units of the first component. *)
Definition pop (k : Z) (l : TextOperation) : TextOperation :=
  match l with
  | [] => []
  | c :: l' => if (getLength c - k <=? 0)%Z then l' else shrink c k :: l'
  end.

Definition headlen (l : TextOperation) : option Z := getLength <$> head l.

(** The loop of [transform] on the remaining parts of both operations: one
    iteration gives the component handed to [append] ([Retain 0] when nothing
    is appended) and the two remaining parts. *)
Definition transform_emit (cA cB : option OpComponent) (k : Z) : OpComponent :=
  if TextType.isRetain' cA && TextType.isRetain' cB then Retain k
  else if TextType.isDelete' cA && TextType.isRetain' cB then Delete k
  else Retain 0.

Definition transform_step (side : Side) (ra rb : TextOperation)
    : option (OpComponent * TextOperation * TextOperation) :=
  if TextType.isInsert' (head ra) then
    if TextType.isInsert' (head rb) then
      match side with
      | Left => Some (Insert (TextType.text_of (head ra)), tail ra, rb)
      | Right => Some (Retain (default 0%Z (headlen rb)), ra, tail rb)
      end
    else Some (Insert (TextType.text_of (head ra)), tail ra, rb)
  else if TextType.isInsert' (head rb) then
    Some (Retain (default 0%Z (headlen rb)), ra, tail rb)
  else
    match TextType.xmin (headlen ra) (headlen rb) with
    | None => None
    | Some k => Some (transform_emit (head ra) (head rb) k, pop k ra, pop k rb)
    end.

Definition compose_emit (cA cB : option OpComponent) (k : Z) : OpComponent :=
  if TextType.isRetain' cA then
    if TextType.isRetain' cB then Retain k
    else if TextType.isDelete' cB then Delete k
    else Retain 0
  else if TextType.isInsert' cA then
    if TextType.isRetain' cB then Insert (js_substr (TextType.text_of cA) 0 k)
    else Retain 0
  else Retain 0.

Definition compose_step (ra rb : TextOperation)
    : option (OpComponent * TextOperation * TextOperation) :=
  if TextType.isDelete' (head ra) then
    Some (Delete (default 0%Z (headlen ra)), tail ra, rb)
  else if TextType.isInsert' (head rb) then
    Some (Insert (TextType.text_of (head rb)), ra, tail rb)
  else
    match TextType.xmin (headlen ra) (headlen rb) with
    | None => None
    | Some k => Some (compose_emit (head ra) (head rb) k, pop k ra, pop k rb)
    end.

(** The components appended by [fuel] iterations. *)
Fixpoint emitted (step : TextOperation → TextOperation →
                         option (OpComponent * TextOperation * TextOperation))
    (fuel : nat) (ra rb : TextOperation) : TextOperation :=
  match fuel with
  | O => []
  | S fuel' =>
    match step ra rb with
    | None => []
    | Some (c, ra', rb') => c :: emitted step fuel' ra' rb'
    end
  end.

(** ** Well-formed operations *)

(** The components of the data model: a positive count, a nonempty text. *)
Definition well_formed (op : TextOperation) : Prop :=
  Forall (λ c, c ≠ Unknown ∧ (0 < getLength c)%Z) op.

(** Consecutive components differ in kind. *)
Definition same_kind (c1 c2 : OpComponent) : bool :=
  isRetain c1 && isRetain c2 || isInsert c1 && isInsert c2 || isDelete c1 && isDelete c2.

Fixpoint alternating (op : TextOperation) : bool :=
  match op with
  | c1 :: (c2 :: _) as op' => negb (same_kind c1 c2) && alternating op'
  | _ => true
  end.

(** Normalized: no component is zero-sized or empty, and no two consecutive
    components share a variant. *)
Definition normalized (op : TextOperation) : bool :=
  forallb (λ c, (0 <? getLength c)%Z) op && alternating op.

(** Operations whose counts are not negative. *)
Definition sized (op : TextOperation) : Prop :=
  Forall (λ c, c ≠ Unknown ∧ (0 ≤ getLength c)%Z) op.

(** ** Loop invariants *)

(** In [transform] an insert is always read whole: the offset of a cursor that
    stands on an insert is zero. *)
Definition transform_inv (opA opB : TextOperation) (st : TextType.cursor) : Prop :=
  (∀ t, opA !! TextType.iA st = Some (Insert t) → TextType.offsetA st = 0%Z) ∧
  (∀ u, opB !! TextType.iB st = Some (Insert u) → TextType.offsetB st = 0%Z).

(** In [compose] an offset stays within its component; a delete of [opA] and
    an insert of [opB] are read whole. *)
Definition compose_inv (opA opB : TextOperation) (st : TextType.cursor) : Prop :=
  (∀ c, opA !! TextType.iA st = Some c →
        (0 ≤ TextType.offsetA st ≤ getLength c)%Z ∧ (isDelete c → TextType.offsetA st = 0%Z)) ∧
  (∀ c, opB !! TextType.iB st = Some c →
        (0 ≤ TextType.offsetB st ≤ getLength c)%Z ∧ (isInsert c → TextType.offsetB st = 0%Z)).

(** ** The server, as the specification words it *)

(** The history entries at log indices [from] through [to - 1], oldest first. *)
Definition log_range {Op} (log : list Op) (from to : Z) : list Op :=
  take (Z.to_nat (to - from)) (drop (Z.to_nat from) log).

(** The left fold of [transform(acc, past_op, "right")] over [entries]; a
    [transform] that throws ends it. *)
Definition fold_transform {Snapshot Op} (type : OTType Snapshot Op)
    (op : Op) (entries : list Op) : result Op :=
  foldl (λ acc past_op, acc ≫= λ a, Interfaces.transform type a past_op Right)
        (Ok op) entries.

(** The record and the log of every document agree: the log of a document at
    revision [v] has [v] entries. *)
Definition consistent {Snapshot Op} (b : MemoryBackend.t Snapshot Op) : Prop :=
  ∀ docId doc, MemoryBackend.documents b !! docId = Some doc →
    ∃ ops, MemoryBackend.history b !! docId = Some ops ∧ v doc = Z.of_nat (length ops).

(** The states of a memory backend: it starts empty and changes through its
    methods only (its maps are private). *)
Inductive reachable {Snapshot Op} : MemoryBackend.t Snapshot Op → Prop :=
  | reachable_new : reachable MemoryBackend.new
  | reachable_createDocument b docId ty initialSnapshot :
      reachable b →
      reachable (MemoryBackend.createDocument docId ty initialSnapshot b).1
  | reachable_saveOperation b docId op newRevision :
      reachable b →
      reachable (MemoryBackend.saveOperation docId op newRevision b).1.

(** ** Sample values *)

(** A second type that calls itself ["text"]: the text type, but for the
    initial document. *)
Definition other_text : OTType jsstring TextOperation :=
  {| Interfaces.name := "text";
     Interfaces.create := str "draft";
     Interfaces.apply := TextType.apply;
     Interfaces.transform := TextType.transform;
     Interfaces.compose := TextType.compose |}.

(** A server with the text type and the empty document ["doc1"], as the
    tests of the server set it up. *)
Definition test_server
    : Server.t (MemoryBackend.t jsstring TextOperation) jsstring TextOperation :=
  (Server.on_backend (MemoryBackend.createDocument "doc1" "text" [])
     (Server.registerType TextType.OT (Server.new MemoryBackend.new)).1).1.

(** The same server after a first client has committed [Insert "Hello"]. *)
Definition test_server_1
    : Server.t (MemoryBackend.t jsstring TextOperation) jsstring TextOperation :=
  (Server.submitOperation "doc1" [Insert (str "Hello")] 0 test_server).1.

(** ** apply, as the specification words it *)

(** The index after scanning [op]: every [Retain] and every [Delete] advances
    it by its count. *)
Fixpoint traversed (op : TextOperation) : Z :=
  match op with
  | [] => 0
  | Retain n :: op' => n + traversed op'
  | Delete n :: op' => n + traversed op'
  | _ :: op' => traversed op'
  end.

(** Scanning [op] left to right, some [Retain] or [Delete] would advance the
    index past [len(snapshot)]. *)
Definition overruns (snapshot : jsstring) (op : TextOperation) : Prop :=
  ∃ pre c post,
    op = pre ++ c :: post ∧ (isRetain c ∨ isDelete c) ∧
    (traversed pre + getLength c > Z.of_nat (length snapshot))%Z.

(** The edited string: [Retain(n)] copies [snapshot[i..i+n]] and advances [i],
    [Insert(s)] copies [s], [Delete(n)] advances [i] without copying, and the
    tail of the snapshot from the final [i] is copied through. *)
Fixpoint edited (snapshot : jsstring) (i : nat) (op : TextOperation) : jsstring :=
  match op with
  | [] => drop i snapshot
  | Retain n :: op' =>
    take (Z.to_nat n) (drop i snapshot) ++ edited snapshot (i + Z.to_nat n) op'
  | Insert s :: op' => s ++ edited snapshot i op'
  | Delete n :: op' => edited snapshot (i + Z.to_nat n) op'
  | Unknown :: op' => edited snapshot i op'
  end.

(** [k <= x] for a length [x] that may be [Infinity]. *)
Definition xle (k : Z) (x : option Z) : Prop :=
  match x with Some n => (k ≤ n)%Z | None => True end.

(** ** Measures of an operation, and the replay of a log *)

(** The text that the inserts of an operation add, in order. *)
Fixpoint inserted_text (op : TextOperation) : jsstring :=
  match op with
  | [] => []
  | Insert t :: op' => t ++ inserted_text op'
  | _ :: op' => inserted_text op'
  end.

(** The number of units that the deletes of an operation remove. *)
Fixpoint deleted (op : TextOperation) : Z :=
  match op with
  | [] => 0
  | Delete n :: op' => n + deleted op'
  | _ :: op' => deleted op'
  end.


(** Replaying a log of operations on a snapshot, oldest first. *)
Fixpoint replay {Snapshot Op} (type : OTType Snapshot Op)
    (snapshot : Snapshot) (log : list Op) : result Snapshot :=
  match log with
  | [] => Ok snapshot
  | op :: log' =>
    snapshot' ← Interfaces.apply type snapshot op;
    replay type snapshot' log'
  end.

(** * Properties *)

Arguments append : simpl never.

(** ** checkOp *)

Lemma checkOp_Ok (op : TextOperation) : checkOp op = Ok tt ↔ Unknown ∉ op.
Proof.
  induction op as [|c op IH]; simpl.
  - split; [intros _; apply not_elem_of_nil | done].
  - rewrite not_elem_of_cons. destruct c; simpl; rewrite ?IH; intuition congruence.
Qed.

Lemma checkOp_Err (op : TextOperation) e :
  checkOp op = Err e ↔ e = OpMalformed ∧ Unknown ∈ op.
Proof.
  induction op as [|c op IH]; simpl.
  - split; [done | intros [_ H]; by apply elem_of_nil in H].
  - rewrite elem_of_cons. destruct c; simpl; rewrite ?IH; intuition congruence.
Qed.

(** ** The loops of transform and compose on the remaining operations *)

Lemma rest_0 (op : TextOperation) i : rest op i 0 = drop i op.
Proof.
  unfold rest. destruct (op !! i) as [c|] eqn:Hc.
  - rewrite (drop_S _ _ _ Hc). f_equal. destruct c; simpl; f_equal; lia.
  - symmetry. apply drop_ge. by apply lookup_ge_None.
Qed.

Lemma length_rest (op : TextOperation) i off : length (rest op i off) = length op - i.
Proof.
  unfold rest. destruct (op !! i) as [c|] eqn:Hc; simpl.
  - apply lookup_lt_Some in Hc. rewrite length_drop. lia.
  - apply lookup_ge_None in Hc. lia.
Qed.

Lemma length_pop k (l : TextOperation) : length (pop k l) ≤ length l.
Proof. destruct l as [|c l]; simpl; [done|]. case_match; simpl; lia. Qed.

Lemma length_pop_headlen k (l : TextOperation) :
  headlen l = Some k → length (pop k l) < length l.
Proof.
  destruct l as [|c l]; simpl; [done|]. intros [= <-].
  rewrite Z.sub_diag. simpl. lia.
Qed.

Lemma xmin_Some x y k :
  TextType.xmin x y = Some k → (x = Some k ∨ y = Some k).
Proof.
  destruct x as [a|], y as [b|]; simpl; intros [= <-]; eauto.
  destruct (Z.min_spec a b) as [[_ ->]|[_ ->]]; eauto.
Qed.

Lemma transform_step_length side ra rb c ra' rb' :
  transform_step side ra rb = Some (c, ra', rb') →
  length ra' + length rb' < length ra + length rb.
Proof.
  unfold transform_step. intros H.
  destruct (TextType.isInsert' (head ra)) eqn:Ha.
  { destruct ra as [|x ra]; [done|].
    destruct (TextType.isInsert' (head rb)) eqn:Hb.
    - destruct rb as [|y rb]; [done|].
      destruct side; simplify_eq; simpl; lia.
    - simplify_eq; simpl; lia. }
  destruct (TextType.isInsert' (head rb)) eqn:Hb.
  { destruct rb as [|y rb]; [done|]. simplify_eq; simpl; lia. }
  destruct (TextType.xmin _ _) as [k|] eqn:Hk; [|done]. simplify_eq.
  pose proof (length_pop k ra). pose proof (length_pop k rb).
  destruct (xmin_Some _ _ _ Hk) as [H'|H'];
    apply length_pop_headlen in H'; lia.
Qed.

Lemma compose_step_length ra rb c ra' rb' :
  compose_step ra rb = Some (c, ra', rb') →
  length ra' + length rb' < length ra + length rb.
Proof.
  unfold compose_step. intros H.
  destruct (TextType.isDelete' (head ra)) eqn:Ha.
  { destruct ra as [|x ra]; [done|]. simplify_eq; simpl; lia. }
  destruct (TextType.isInsert' (head rb)) eqn:Hb.
  { destruct rb as [|y rb]; [done|]. simplify_eq; simpl; lia. }
  destruct (TextType.xmin _ _) as [k|] eqn:Hk; [|done]. simplify_eq.
  pose proof (length_pop k ra). pose proof (length_pop k rb).
  destruct (xmin_Some _ _ _ Hk) as [H'|H'];
    apply length_pop_headlen in H'; lia.
Qed.

Section while_emitted.
Import TextType.
Variables (opA opB : TextOperation).
Variable body : cursor → cursor.
Variable step : TextOperation → TextOperation →
                option (OpComponent * TextOperation * TextOperation).
Variable inv : cursor → Prop.

Local Abbreviation restA st := (rest opA (iA st) (offsetA st)).
Local Abbreviation restB st := (rest opB (iB st) (offsetB st)).

Hypothesis step_length : ∀ ra rb c ra' rb',
  step ra rb = Some (c, ra', rb') →
  length ra' + length rb' < length ra + length rb.
Hypothesis step_nil : step [] [] = None.
Hypothesis body_step : ∀ st, inv st →
  match step (restA st) (restB st) with
  | Some (c, ra', rb') =>
    newOp (body st) = append (newOp st) c ∧
    restA (body st) = ra' ∧ restB (body st) = rb' ∧ inv (body st)
  | None => restA st = [] ∧ restB st = []
  end.

Lemma while_emitted fuel st :
  inv st →
  length (restA st) + length (restB st) ≤ fuel →
  ∃ st', while fuel opA opB body st = Some st' ∧
         newOp st' = foldl append (newOp st) (emitted step fuel (restA st) (restB st)).
Proof using step_length step_nil body_step.
  revert st. induction fuel as [|fuel IH]; intros st Hinv Hfuel.
  - assert (length opA ≤ iA st ∧ length opB ≤ iB st) as [HA HB].
    { rewrite !length_rest in Hfuel. lia. }
    exists st. simpl. rewrite !bool_decide_eq_false_2 by lia. done.
  - pose proof (body_step st Hinv) as Hstep. simpl.
    destruct (step (restA st) (restB st)) as [[[c ra'] rb']|] eqn:Hs.
    + destruct Hstep as (Hnew & Hra & Hrb & Hinv').
      pose proof (step_length _ _ _ _ _ Hs) as Hlt.
      assert (iA st < length opA ∨ iB st < length opB) as Hcond.
      { rewrite !length_rest in Hlt. lia. }
      assert (bool_decide (iA st < length opA) || bool_decide (iB st < length opB) = true)
        as ->.
      { destruct Hcond; [rewrite (bool_decide_eq_true_2 (iA st < _))|
                         rewrite (bool_decide_eq_true_2 (iB st < _))]; try done.
        apply orb_true_r. }
      destruct (IH (body st) Hinv') as (st' & Hw & Hop).
      { rewrite Hra, Hrb. lia. }
      exists st'. split; [done|]. by rewrite Hop, Hnew, Hra, Hrb.
    + destruct Hstep as [HA HB].
      assert (length opA ≤ iA st ∧ length opB ≤ iB st) as [HA' HB'].
      { apply (f_equal length) in HA, HB.
        rewrite !length_rest in HA, HB. simpl in *. lia. }
      exists st. rewrite !bool_decide_eq_false_2 by lia. done.
Qed.
End while_emitted.

(** *** The cursors of the loops read the remaining operations *)

Section cursors.
Import TextType.

Lemma head_rest (op : TextOperation) i off :
  head (rest op i off) = (λ c, shrink c off) <$> op !! i.
Proof. unfold rest. by destruct (op !! i). Qed.

Lemma head_rest_0 (op : TextOperation) i : head (rest op i 0) = op !! i.
Proof.
  rewrite head_rest. destruct (op !! i) as [c|]; simpl; [|done].
  f_equal. destruct c; simpl; f_equal; lia.
Qed.

Lemma isInsert_rest (op : TextOperation) i off :
  isInsert' (head (rest op i off)) = isInsert' (op !! i).
Proof. rewrite head_rest. by destruct (op !! i) as [[]|]. Qed.

Lemma isRetain_rest (op : TextOperation) i off :
  isRetain' (head (rest op i off)) = isRetain' (op !! i).
Proof. rewrite head_rest. by destruct (op !! i) as [[]|]. Qed.

Lemma isDelete_rest (op : TextOperation) i off :
  isDelete' (head (rest op i off)) = isDelete' (op !! i).
Proof. rewrite head_rest. by destruct (op !! i) as [[]|]. Qed.

Lemma headlen_rest (op : TextOperation) i off :
  Unknown ∉ op →
  (∀ t, op !! i = Some (Insert t) → (0 ≤ off ≤ Z.of_nat (length t))%Z) →
  headlen (rest op i off) = xsub (getLength' (op !! i)) off.
Proof.
  intros Hop Hins. unfold headlen. rewrite head_rest.
  destruct (op !! i) as [c|] eqn:Hc; simpl; [|done]. f_equal.
  destruct c; simpl; try done.
  - specialize (Hins _ eq_refl). rewrite length_drop. lia.
  - destruct Hop. by eapply list_elem_of_lookup_2.
Qed.

Lemma tail_rest (op : TextOperation) i off :
  tail (rest op i off) = rest op (i + 1) 0.
Proof.
  rewrite rest_0. unfold rest. destruct (op !! i) eqn:Hc; simpl.
  - f_equal. lia.
  - symmetry. apply drop_ge. apply lookup_ge_None in Hc. lia.
Qed.

Lemma pop_rest (op : TextOperation) i off k :
  Unknown ∉ op →
  (∀ t, op !! i = Some (Insert t) → (0 ≤ off ∧ 0 ≤ k)%Z) →
  let done := bool_decide (i < length op) && xge (off + k) (getLength' (op !! i)) in
  pop k (rest op i off) =
  rest op (if done then i + 1 else i) (if done then 0%Z else (off + k)%Z).
Proof.
  intros Hop Hins. simpl. destruct (op !! i) as [c|] eqn:Hc.
  - rewrite bool_decide_eq_true_2 by (by eapply lookup_lt_Some). simpl.
    unfold rest at 1. rewrite Hc. simpl.
    assert ((getLength (shrink c off) - k <=? 0)%Z = (getLength c <=? off + k)%Z) as ->.
    { apply eq_true_iff_eq. rewrite !Z.leb_le.
      destruct c; simpl; try lia.
      - destruct (Hins _ eq_refl). rewrite length_drop. lia.
      - destruct Hop. by eapply list_elem_of_lookup_2. }
    destruct (getLength c <=? off + k)%Z eqn:Hle.
    + rewrite rest_0. f_equal. lia.
    + unfold rest. rewrite Hc. f_equal.
      destruct c; simpl; f_equal; try lia.
      destruct (Hins _ eq_refl). rewrite drop_drop. f_equal. lia.
  - rewrite bool_decide_eq_false_2 by (apply lookup_ge_None in Hc; lia). simpl.
    unfold rest. by rewrite Hc.
Qed.

Lemma isInsert'_Some (c : option OpComponent) :
  isInsert' c = true → ∃ t, c = Some (Insert t).
Proof. destruct c as [[]|]; simpl; intros; by eauto. Qed.

Lemma xsub_0 x : xsub x 0 = x.
Proof. destruct x; simpl; f_equal; lia. Qed.

Lemma transform_inv_advance opA opB cA cB k out st :
  transform_inv opA opB st →
  isInsert' (opA !! iA st) = false → isInsert' (opB !! iB st) = false →
  transform_inv opA opB (advance opA opB cA cB k out st).
Proof.
  intros [IA IB] EA EB. split; simpl; intros t Ht.
  - destruct (_ && _); [done|]. by rewrite Ht in EA.
  - destruct (_ && _); [done|]. by rewrite Ht in EB.
Qed.

Lemma transform_body_step opA opB side st :
  Unknown ∉ opA → Unknown ∉ opB → transform_inv opA opB st →
  match transform_step side (rest opA (iA st) (offsetA st)) (rest opB (iB st) (offsetB st)) with
  | Some (c, ra', rb') =>
    newOp (transform_body opA opB side st) = append (newOp st) c ∧
    rest opA (iA (transform_body opA opB side st)) (offsetA (transform_body opA opB side st)) = ra' ∧
    rest opB (iB (transform_body opA opB side st)) (offsetB (transform_body opA opB side st)) = rb' ∧
    transform_inv opA opB (transform_body opA opB side st)
  | None => rest opA (iA st) (offsetA st) = [] ∧ rest opB (iB st) (offsetB st) = []
  end.
Proof.
  intros HA HB Hinv. pose proof Hinv as [IA IB].
  assert (isInsert' (opA !! iA st) = true → offsetA st = 0%Z) as IA'.
  { intros [t Ht]%isInsert'_Some. eauto. }
  assert (isInsert' (opB !! iB st) = true → offsetB st = 0%Z) as IB'.
  { intros [t Ht]%isInsert'_Some. eauto. }
  assert (headlen (rest opA (iA st) (offsetA st))
          = xsub (getLength' (opA !! iA st)) (offsetA st)) as HlenA.
  { apply headlen_rest; [done|]. intros t Ht. rewrite (IA _ Ht). lia. }
  assert (headlen (rest opB (iB st) (offsetB st))
          = xsub (getLength' (opB !! iB st)) (offsetB st)) as HlenB.
  { apply headlen_rest; [done|]. intros t Ht. rewrite (IB _ Ht). lia. }
  assert (isInsert' (opA !! iA st) = true →
          text_of (head (rest opA (iA st) (offsetA st))) = text_of (opA !! iA st)) as HtA.
  { intros E. rewrite (IA' E), rest_0. apply isInsert'_Some in E as [t Ht].
    rewrite Ht. by rewrite (drop_S _ _ _ Ht). }
  unfold transform_step, transform_body.
  rewrite !isInsert_rest, HlenA, HlenB.
  destruct (isInsert' (opA !! iA st)) eqn:EA.
  { rewrite HtA by done. rewrite (IA' eq_refl).
    destruct (isInsert' (opB !! iB st)) eqn:EB; [destruct side|]; simpl;
      rewrite ?(IB' eq_refl), ?xsub_0, ?tail_rest; split_and!;
      try first [done | by split; simpl; intros; auto]. }
  destruct (isInsert' (opB !! iB st)) eqn:EB.
  { simpl. rewrite (IB' eq_refl), xsub_0, tail_rest. split_and!;
      try first [done | by split; simpl; intros; auto]. }
  destruct (xmin _ _) as [k|] eqn:Hk.
  - split_and!.
    + unfold transform_emit, advance. rewrite !isRetain_rest, !isDelete_rest.
      cbn [newOp]. by repeat case_match.
    + rewrite pop_rest; [done..|]. intros t Ht. by rewrite Ht in EA.
    + rewrite pop_rest; [done..|]. intros t Ht. by rewrite Ht in EB.
    + by apply transform_inv_advance.
  - destruct (opA !! iA st) as [cA|] eqn:HcA, (opB !! iB st) as [cB|] eqn:HcB; try done.
    unfold rest. by rewrite HcA, HcB.
Qed.

Lemma transform_emitted opA opB side :
  Unknown ∉ opA → Unknown ∉ opB →
  ∃ st, while (length opA + length opB) opA opB (transform_body opA opB side) start = Some st ∧
        newOp st = normalize (emitted (transform_step side) (length opA + length opB) opA opB).
Proof.
  intros HA HB.
  destruct (while_emitted opA opB (transform_body opA opB side) (transform_step side)
              (transform_inv opA opB) (transform_step_length side) eq_refl
              (λ st, transform_body_step opA opB side st HA HB)
              (length opA + length opB) start) as (st & Hw & Hop).
  - done.
  - rewrite !length_rest. simpl. lia.
  - exists st. split; [done|]. rewrite Hop. simpl. by rewrite !rest_0.
Qed.

Lemma sized_lookup (op : TextOperation) i c :
  sized op → op !! i = Some c → c ≠ Unknown ∧ (0 ≤ getLength c)%Z.
Proof. intros H Hc. by apply (Forall_lookup_1 _ _ _ _ H Hc). Qed.

Lemma sized_Unknown (op : TextOperation) : sized op → Unknown ∉ op.
Proof.
  intros H Hin. unfold sized in H. rewrite Forall_forall in H.
  by destruct (H _ Hin).
Qed.

Lemma js_substr_drop (t : jsstring) p k :
  (0 ≤ p)%Z → js_substr (drop (Z.to_nat p) t) 0 k = js_substr t p k.
Proof.
  intros Hp. unfold js_substr, js_rel_index.
  rewrite length_drop. simpl.
  replace (p <? 0)%Z with false by (symmetry; apply Z.ltb_ge; lia).
  rewrite drop_drop.
  destruct (decide (p ≤ Z.of_nat (length t))%Z).
  - f_equal; [|f_equal]; lia.
  - rewrite !drop_ge by lia. by rewrite !take_nil.
Qed.

Lemma isDelete'_Some (c : option OpComponent) :
  isDelete' c = true → ∃ d, c = Some (Delete d).
Proof. destruct c as [[]|]; simpl; intros; by eauto. Qed.

Lemma compose_inv_next_A opA opB st iB' offsetB' out :
  sized opA → 
  (∀ c, opB !! iB' = Some c →
        (0 ≤ offsetB' ≤ getLength c)%Z ∧ (isInsert c → offsetB' = 0%Z)) →
  compose_inv opA opB {| iA := iA st + 1; iB := iB'; offsetA := 0; offsetB := offsetB'; newOp := out |}.
Proof.
  intros HA HB. split; simpl; [|done].
  intros c Hc. destruct (sized_lookup _ _ _ HA Hc). split; [lia|done].
Qed.

Lemma compose_inv_next_B opA opB st iA' offsetA' out :
  sized opB → 
  (∀ c, opA !! iA' = Some c →
        (0 ≤ offsetA' ≤ getLength c)%Z ∧ (isDelete c → offsetA' = 0%Z)) →
  compose_inv opA opB {| iA := iA'; iB := iB st + 1; offsetA := offsetA'; offsetB := 0; newOp := out |}.
Proof.
  intros HB HA. split; simpl; [done|].
  intros c Hc. destruct (sized_lookup _ _ _ HB Hc). split; [lia|done].
Qed.

Lemma compose_inv_advance opA opB k out st :
  sized opA → sized opB → compose_inv opA opB st → (0 ≤ k)%Z →
  isDelete' (opA !! iA st) = false → isInsert' (opB !! iB st) = false →
  compose_inv opA opB (advance opA opB (opA !! iA st) (opB !! iB st) k out st).
Proof.
  intros HA HB [IA IB] Hk EA EB. split; simpl; intros c Hc.
  - destruct (bool_decide _ && _) eqn:Hd.
    + destruct (sized_lookup _ _ _ HA Hc). split; [lia|done].
    + destruct (IA _ Hc) as [[H0 H1] H2].
      rewrite Hc in Hd, EA. simpl in Hd, EA.
      rewrite bool_decide_eq_true_2 in Hd by (by eapply lookup_lt_Some).
      simpl in Hd. apply Z.leb_gt in Hd. split; [lia|].
      intros Hdel. by rewrite EA in Hdel.
  - destruct (bool_decide _ && _) eqn:Hd.
    + destruct (sized_lookup _ _ _ HB Hc). split; [lia|done].
    + destruct (IB _ Hc) as [[H0 H1] H2].
      rewrite Hc in Hd, EB. simpl in Hd, EB.
      rewrite bool_decide_eq_true_2 in Hd by (by eapply lookup_lt_Some).
      simpl in Hd. apply Z.leb_gt in Hd. split; [lia|].
      intros Hins. by rewrite EB in Hins.
Qed.

Lemma compose_body_step opA opB st :
  sized opA → sized opB → compose_inv opA opB st →
  match compose_step (rest opA (iA st) (offsetA st)) (rest opB (iB st) (offsetB st)) with
  | Some (c, ra', rb') =>
    newOp (compose_body opA opB st) = append (newOp st) c ∧
    rest opA (iA (compose_body opA opB st)) (offsetA (compose_body opA opB st)) = ra' ∧
    rest opB (iB (compose_body opA opB st)) (offsetB (compose_body opA opB st)) = rb' ∧
    compose_inv opA opB (compose_body opA opB st)
  | None => rest opA (iA st) (offsetA st) = [] ∧ rest opB (iB st) (offsetB st) = []
  end.
Proof.
  intros HA HB Hinv. pose proof Hinv as [IA IB].
  pose proof (sized_Unknown _ HA) as HuA. pose proof (sized_Unknown _ HB) as HuB.
  assert (isDelete' (opA !! iA st) = true → offsetA st = 0%Z) as IA'.
  { intros [t Ht]%isDelete'_Some. by apply (IA _ Ht). }
  assert (isInsert' (opB !! iB st) = true → offsetB st = 0%Z) as IB'.
  { intros [t Ht]%isInsert'_Some. by apply (IB _ Ht). }
  assert (headlen (rest opA (iA st) (offsetA st))
          = xsub (getLength' (opA !! iA st)) (offsetA st)) as HlenA.
  { apply headlen_rest; [done|]. intros t Ht. by apply (IA _ Ht). }
  assert (headlen (rest opB (iB st) (offsetB st))
          = xsub (getLength' (opB !! iB st)) (offsetB st)) as HlenB.
  { apply headlen_rest; [done|]. intros t Ht. by apply (IB _ Ht). }
  unfold compose_step, compose_body.
  rewrite !isInsert_rest, !isDelete_rest, HlenA, HlenB.
  destruct (isDelete' (opA !! iA st)) eqn:EA.
  { rewrite (IA' eq_refl), xsub_0, tail_rest. simpl. split_and!; try done.
    apply compose_inv_next_A; [done|]. apply IB. }
  destruct (isInsert' (opB !! iB st)) eqn:EB.
  { rewrite (IB' eq_refl), tail_rest, head_rest_0. simpl. split_and!; try done.
    apply compose_inv_next_B; [done|]. apply IA. }
  assert (∀ t, opA !! iA st = Some (Insert t) →
               text_of (head (rest opA (iA st) (offsetA st)))
               = drop (Z.to_nat (offsetA st)) t) as HtA.
  { intros t Ht. rewrite head_rest, Ht. done. }
  destruct (xmin _ _) as [k|] eqn:Hk.
  - assert (0 ≤ k)%Z as Hk0.
    { destruct (opA !! iA st) as [cA|] eqn:HcA, (opB !! iB st) as [cB|] eqn:HcB;
        simpl in Hk; simplify_eq;
        try (destruct (IA _ eq_refl) as [? _]); try (destruct (IB _ eq_refl) as [? _]); lia. }
    split_and!.
    + unfold compose_emit, advance. rewrite !isRetain_rest, !isDelete_rest, !isInsert_rest.
      cbn [newOp]. repeat case_match; try done.
      destruct (isInsert'_Some (opA !! iA st)) as [t Ht]; [done|].
      rewrite (HtA _ Ht), Ht. simpl. rewrite js_substr_drop; [done|].
      by destruct (IA _ Ht) as [[? _] _].
    + rewrite pop_rest; [done..|]. intros t Ht. by destruct (IA _ Ht) as [[? _] _].
    + rewrite pop_rest; [done..|]. intros t Ht. by rewrite Ht in EB.
    + by apply compose_inv_advance.
  - destruct (opA !! iA st) as [cA|] eqn:HcA, (opB !! iB st) as [cB|] eqn:HcB; try done.
    unfold rest. by rewrite HcA, HcB.
Qed.

Lemma compose_emitted opA opB :
  sized opA → sized opB →
  ∃ st, while (length opA + length opB) opA opB (compose_body opA opB) start = Some st ∧
        newOp st = normalize (emitted compose_step (length opA + length opB) opA opB).
Proof.
  intros HA HB.
  destruct (while_emitted opA opB (compose_body opA opB) compose_step
              (compose_inv opA opB) compose_step_length eq_refl
              (λ st, compose_body_step opA opB st HA HB)
              (length opA + length opB) start) as (st & Hw & Hop).
  - split; simpl; intros c Hc.
    + destruct (sized_lookup _ _ _ HA Hc). split; [lia|done].
    + destruct (sized_lookup _ _ _ HB Hc). split; [lia|done].
  - rewrite !length_rest. simpl. lia.
  - exists st. split; [done|]. rewrite Hop. simpl. by rewrite !rest_0.
Qed.

End cursors.

(** *** append and normalize keep the edit *)

Lemma append_cons x (acc : TextOperation) c :
  acc ≠ [] → append (x :: acc) c = x :: append acc c.
Proof.
  intros Hacc. destruct acc as [|y acc]; [done|]. unfold append.
  assert (length (x :: y :: acc) - 1 = S (length (y :: acc) - 1)) as -> by (simpl; lia).
  generalize (length (y :: acc) - 1). intros n.
  change ((x :: y :: acc) !! S n) with ((y :: acc) !! n).
  destruct c as [[| |]|[|]|[| |]|]; try done;
    destruct ((y :: acc) !! n) as [[]|]; done.
Qed.

Lemma sem_cons_mono x (l1 l2 : TextOperation) s r :
  (∀ s' r', sem l1 s' = Some r' → sem l2 s' = Some r') →
  sem (x :: l1) s = Some r → sem (x :: l2) s = Some r.
Proof.
  intros Hl. destruct x; simpl; try done.
  - case_bool_decide; [|done].
    destruct (sem l1 _) as [r'|] eqn:H1; [|done]. by rewrite (Hl _ _ H1).
  - destruct (sem l1 _) as [r'|] eqn:H1; [|done]. by rewrite (Hl _ _ H1).
  - case_bool_decide; [|done]. apply Hl.
Qed.

Lemma sem_retain_retain a b (l : TextOperation) s r :
  sem (Retain a :: Retain b :: l) s = Some r → sem (Retain (a + b) :: l) s = Some r.
Proof.
  simpl. case_bool_decide as Ha; [|done].
  rewrite length_drop. case_bool_decide as Hb; [|by destruct (sem _ _)].
  rewrite bool_decide_eq_true_2 by lia.
  destruct (sem l _) as [r'|] eqn:Hl; [|done]. simpl. intros [= <-].
  rewrite drop_drop in Hl.
  replace (Z.to_nat (a + b)) with (Z.to_nat a + Z.to_nat b) by lia.
  rewrite Hl. simpl. f_equal. rewrite app_assoc. f_equal.
  by rewrite take_take_drop.
Qed.

Lemma sem_delete_delete a b (l : TextOperation) s r :
  sem (Delete a :: Delete b :: l) s = Some r → sem (Delete (a + b) :: l) s = Some r.
Proof.
  simpl. case_bool_decide as Ha; [|done].
  rewrite length_drop. case_bool_decide as Hb; [|done].
  rewrite bool_decide_eq_true_2 by lia.
  rewrite drop_drop.
  by replace (Z.to_nat (a + b)) with (Z.to_nat a + Z.to_nat b) by lia.
Qed.

Lemma sem_insert_insert a b (l : TextOperation) s r :
  sem (Insert a :: Insert b :: l) s = Some r → sem (Insert (a ++ b) :: l) s = Some r.
Proof.
  simpl. destruct (sem l s) as [r'|]; [|done]. simpl. intros [= <-].
  by rewrite app_assoc.
Qed.

Lemma sem_retain_0 (l : TextOperation) s : sem (Retain 0 :: l) s = sem l s.
Proof.
  simpl. rewrite bool_decide_eq_true_2 by lia.
  change (Z.to_nat 0) with 0. rewrite drop_0. by destruct (sem l s).
Qed.

Lemma sem_delete_0 (l : TextOperation) s : sem (Delete 0 :: l) s = sem l s.
Proof. simpl. rewrite bool_decide_eq_true_2 by lia. done. Qed.

Lemma sem_insert_nil (l : TextOperation) s : sem (Insert [] :: l) s = sem l s.
Proof. simpl. by destruct (sem l s). Qed.

Lemma sem_append (acc : TextOperation) c l s r :
  sem (acc ++ c :: l) s = Some r → sem (append acc c ++ l) s = Some r.
Proof.
  revert s r. induction acc as [|x acc IH]; intros s r.
  - destruct c as [[| |]|[|]|[| |]|]; try done; simpl app;
      rewrite ?sem_retain_0, ?sem_delete_0, ?sem_insert_nil; done.
  - destruct acc as [|y acc].
    + destruct c as [[| |]|[|]|[| |]|], x; simpl app;
        rewrite ?sem_retain_0, ?sem_delete_0, ?sem_insert_nil; try done;
        first [apply sem_retain_retain | apply sem_delete_delete | apply sem_insert_insert
              | (apply sem_cons_mono; intros s' r'; by rewrite ?sem_retain_0, ?sem_delete_0, ?sem_insert_nil) ].
    + rewrite append_cons by done. apply sem_cons_mono. intros s' r'. apply IH.
Qed.

Lemma sem_foldl_append (acc l : TextOperation) s r :
  sem (acc ++ l) s = Some r → sem (foldl append acc l) s = Some r.
Proof.
  revert acc. induction l as [|c l IH]; intros acc; simpl.
  - by rewrite app_nil_r.
  - intros H. apply IH. by apply sem_append.
Qed.

Lemma sem_normalize (l : TextOperation) s r :
  sem l s = Some r → sem (normalize l) s = Some r.
Proof. apply (sem_foldl_append []). Qed.

(** *** apply is the edit *)

Lemma js_slice_range {A} (l : list A) i n :
  (0 ≤ i)%Z → (0 ≤ n)%Z → (i + n ≤ Z.of_nat (length l))%Z →
  js_slice l i (Some (i + n)%Z) = take (Z.to_nat n) (drop (Z.to_nat i) l).
Proof.
  intros Hi Hn Hlen. unfold js_slice, js_rel_index.
  replace (i <? 0)%Z with false by (symmetry; apply Z.ltb_ge; lia).
  replace (i + n <? 0)%Z with false by (symmetry; apply Z.ltb_ge; lia).
  f_equal; [|f_equal]; lia.
Qed.

Lemma js_slice_tail {A} (l : list A) i :
  (0 ≤ i ≤ Z.of_nat (length l))%Z → js_slice l i None = drop (Z.to_nat i) l.
Proof.
  intros Hi. unfold js_slice, js_rel_index.
  replace (i <? 0)%Z with false by (symmetry; apply Z.ltb_ge; lia).
  rewrite Z.min_l by lia. apply take_ge. rewrite length_drop. lia.
Qed.

Lemma sem_sized (op : TextOperation) s r : sem op s = Some r → sized op.
Proof.
  revert s r. induction op as [|c op IH]; intros s r; [by constructor|].
  destruct c; simpl; try done.
  - case_bool_decide; [|done]. destruct (sem op _) eqn:H'; [|done].
    intros _. constructor; [simpl; split; [done|lia]|by eapply IH].
  - destruct (sem op _) eqn:H'; [|done].
    intros _. constructor; [simpl; split; [done|lia]|by eapply IH].
  - case_bool_decide; [|done]. intros H'.
    constructor; [simpl; split; [done|lia]|by eapply IH].
Qed.

Lemma well_formed_sized (op : TextOperation) : well_formed op → sized op.
Proof.
  intros H. eapply Forall_impl; [exact H|]. intros c [? ?]. split; [done|lia].
Qed.

Lemma apply_loop_sem (s : jsstring) (op : TextOperation) res index :
  sized op → (0 ≤ index ≤ Z.of_nat (length s))%Z →
  match sem op (drop (Z.to_nat index) s) with
  | Some r => ∃ out index',
      TextType.apply_loop s op (res, index) = Ok (res ++ out, index') ∧
      (index ≤ index' ≤ Z.of_nat (length s))%Z ∧
      r = out ++ drop (Z.to_nat index') s
  | None => TextType.apply_loop s op (res, index) = Err OpOutOfBounds
  end.
Proof.
  intros Hop. revert res index.
  induction Hop as [|c op [Hc Hlen] Hop IH]; intros res index Hindex.
  { simpl. exists [], index. rewrite app_nil_r. split_and!; [done|lia..|done]. }
  destruct c as [n|t|n|]; [| | |done]; simpl in Hlen |- *.
  - rewrite length_drop.
    destruct (decide (index + n ≤ Z.of_nat (length s))%Z) as [Hle|Hgt].
    + rewrite bool_decide_eq_true_2 by lia.
      replace (index + n >? Z.of_nat (length s))%Z with false by lia.
      simpl. rewrite drop_drop.
      replace (Z.to_nat index + Z.to_nat n) with (Z.to_nat (index + n)) by lia.
      specialize (IH (res ++ js_slice s index (Some (index + n)%Z)) (index + n)%Z).
      destruct (sem op _) as [r|]; simpl.
      * destruct IH as (out & index' & -> & ? & ->); [lia|].
        exists (take (Z.to_nat n) (drop (Z.to_nat index) s) ++ out), index'.
        rewrite js_slice_range by lia. rewrite !app_assoc. split_and!; [done|lia..|done].
      * apply IH. lia.
    + rewrite bool_decide_eq_false_2 by lia.
      by replace (index + n >? Z.of_nat (length s))%Z with true by lia.
  - specialize (IH (res ++ t) index Hindex).
    destruct (sem op _) as [r|]; simpl; [|done].
    destruct IH as (out & index' & -> & ? & ->).
    exists (t ++ out), index'. rewrite !app_assoc. split_and!; [done|lia..|done].
  - rewrite length_drop.
    destruct (decide (index + n ≤ Z.of_nat (length s))%Z) as [Hle|Hgt].
    + rewrite bool_decide_eq_true_2 by lia.
      replace (index + n >? Z.of_nat (length s))%Z with false by lia.
      simpl. rewrite drop_drop.
      replace (Z.to_nat index + Z.to_nat n) with (Z.to_nat (index + n)) by lia.
      specialize (IH res (index + n)%Z).
      destruct (sem op _) as [r|]; simpl.
      * destruct IH as (out & index' & -> & ? & ->); [lia|].
        exists out, index'. split_and!; [done|lia..|done].
      * apply IH. lia.
    + rewrite bool_decide_eq_false_2 by lia.
      by replace (index + n >? Z.of_nat (length s))%Z with true by lia.
Qed.

Lemma apply_sized (s : jsstring) (op : TextOperation) :
  sized op →
  TextType.apply s op =
  match sem op s with Some r => Ok r | None => Err OpOutOfBounds end.
Proof.
  intros Hop. unfold TextType.apply.
  rewrite (proj2 (checkOp_Ok op)) by (by apply sized_Unknown). simpl.
  assert (0 ≤ 0 ≤ Z.of_nat (length s))%Z as H0 by lia.
  pose proof (apply_loop_sem s op [] 0%Z Hop H0) as H.
  change (drop (Z.to_nat 0) s) with s in H.
  destruct (sem op s) as [r|].
  - destruct H as (out & index' & -> & ? & ->). simpl.
    destruct (index' <? Z.of_nat (length s))%Z eqn:Hlt.
    + by rewrite js_slice_tail by lia.
    + apply Z.ltb_ge in Hlt. rewrite drop_ge by lia. by rewrite app_nil_r.
  - by rewrite H.
Qed.

Lemma apply_sem (s : jsstring) (op : TextOperation) r :
  sem op s = Some r → TextType.apply s op = Ok r.
Proof. intros H. rewrite apply_sized by (by eapply sem_sized). by rewrite H. Qed.

Lemma apply_Ok_sem (s : jsstring) (op : TextOperation) r :
  sized op → TextType.apply s op = Ok r → sem op s = Some r.
Proof. intros Hop. rewrite apply_sized by done. by destruct (sem op s); intros [= ->]. Qed.

Section edits.
Import TextType.

(** *** Reading part of a component *)

Lemma sem_headlen (l : TextOperation) s t n :
  sem l s = Some t → isInsert' (head l) = false → headlen l = Some n →
  (0 ≤ n ≤ Z.of_nat (length s))%Z.
Proof.
  destruct l as [|[] l]; simpl; try done.
  - case_bool_decide; [|done]. by intros _ _ [= <-].
  - case_bool_decide; [|done]. by intros _ _ [= <-].
Qed.

Lemma sem_pop (l : TextOperation) s t k :
  sem l s = Some t → isInsert' (head l) = false →
  (0 ≤ k ≤ Z.of_nat (length s))%Z → xle k (headlen l) →
  ∃ t', t = (if isRetain' (head l) then take (Z.to_nat k) s else []) ++ t' ∧
        sem (pop k l) (drop (Z.to_nat k) s) = Some t'.
Proof.
  intros Hsem Hins Hk Hle. destruct l as [|[n|u|n|] l]; simpl in *; try done.
  - simplify_eq. exists (drop (Z.to_nat k) t). by rewrite take_drop.
  - case_bool_decide as Hn; [|done].
    destruct (sem l _) as [t0|] eqn:Hl; [|done]. simplify_eq/=.
    destruct (n - k <=? 0)%Z eqn:Hnk.
    + apply Z.leb_le in Hnk. assert (k = n) as -> by lia. eauto.
    + apply Z.leb_gt in Hnk. simpl. rewrite length_drop.
      rewrite bool_decide_eq_true_2 by lia. rewrite drop_drop.
      replace (Z.to_nat k + Z.to_nat (n - k)) with (Z.to_nat n) by lia.
      rewrite Hl. simpl. eexists; split; [|done].
      rewrite app_assoc. f_equal. rewrite take_take_drop. f_equal. lia.
  - case_bool_decide as Hn; [|done]. exists t. split; [done|].
    destruct (n - k <=? 0)%Z eqn:Hnk.
    + apply Z.leb_le in Hnk. by assert (k = n) as -> by lia.
    + apply Z.leb_gt in Hnk. simpl. rewrite length_drop.
      rewrite bool_decide_eq_true_2 by lia. rewrite drop_drop.
      by replace (Z.to_nat k + Z.to_nat (n - k)) with (Z.to_nat n) by lia.
Qed.

Lemma sem_retain_app k (l : TextOperation) (p x : jsstring) r :
  Z.of_nat (length p) = k → sem l x = Some r →
  sem (Retain k :: l) (p ++ x) = Some (p ++ r).
Proof.
  intros <- Hl. simpl. rewrite length_app, Nat2Z.id.
  rewrite bool_decide_eq_true_2 by lia.
  by rewrite drop_app_length, take_app_length, Hl.
Qed.

Lemma sem_delete_app k (l : TextOperation) (p x : jsstring) r :
  Z.of_nat (length p) = k → sem l x = Some r →
  sem (Delete k :: l) (p ++ x) = Some r.
Proof.
  intros <- Hl. simpl. rewrite length_app, Nat2Z.id.
  rewrite bool_decide_eq_true_2 by lia.
  by rewrite drop_app_length.
Qed.

Lemma sem_insert_cons t (l : TextOperation) x r :
  sem l x = Some r → sem (Insert t :: l) x = Some (t ++ r).
Proof. intros Hl. simpl. by rewrite Hl. Qed.

Lemma xmin_bounds x y k :
  xmin x y = Some k → xle k x ∧ xle k y.
Proof. destruct x, y; simpl; intros [= <-]; split; try done; lia. Qed.

Lemma passive_kind (l : TextOperation) s t :
  sem l s = Some t → isInsert' (head l) = false →
  isDelete' (head l) = negb (isRetain' (head l)).
Proof. by destruct l as [|[] l]. Qed.

(** *** Convergence of transform, on the remaining operations *)

Lemma tp1_emitted fuel : ∀ ra rb s ta tb,
  sem ra s = Some ta → sem rb s = Some tb →
  length ra + length rb ≤ fuel →
  ∃ r, sem (emitted (transform_step Right) fuel rb ra) ta = Some r ∧
       sem (emitted (transform_step Left) fuel ra rb) tb = Some r.
Proof.
  induction fuel as [|fuel IH]; intros ra rb s ta tb Ha Hb Hfuel.
  { destruct ra, rb; simpl in Hfuel; try lia. simpl in *. simplify_eq. eauto. }
  cbn [emitted].
  destruct (isInsert' (head ra)) eqn:EA.
  { (* an insert of the left operation *)
    destruct ra as [|[| t | |] ra]; try done.
    assert (transform_step Left (Insert t :: ra) rb = Some (Insert t, ra, rb)) as ->.
    { unfold transform_step. simpl. by destruct (isInsert' (head rb)). }
    assert (transform_step Right rb (Insert t :: ra)
            = Some (Retain (Z.of_nat (length t)), rb, ra)) as ->.
    { unfold transform_step. simpl. by destruct (isInsert' (head rb)). }
    simpl in Ha. destruct (sem ra s) as [ta'|] eqn:Ha'; [|done]. simplify_eq/=.
    destruct (IH ra rb s ta' tb) as (r & H1 & H2); [done..|simpl in Hfuel; lia|].
    exists (t ++ r). split.
    - by apply sem_retain_app.
    - by apply sem_insert_cons. }
  destruct (isInsert' (head rb)) eqn:EB.
  { (* an insert of the right operation *)
    destruct rb as [|[| u | |] rb]; try done.
    assert (transform_step Left ra (Insert u :: rb)
            = Some (Retain (Z.of_nat (length u)), ra, rb)) as ->.
    { unfold transform_step. by rewrite EA. }
    assert (transform_step Right (Insert u :: rb) ra = Some (Insert u, rb, ra)) as ->.
    { unfold transform_step. simpl. by rewrite EA. }
    simpl in Hb. destruct (sem rb s) as [tb'|] eqn:Hb'; [|done]. simplify_eq/=.
    destruct (IH ra rb s ta tb') as (r & H1 & H2); [done..|simpl in Hfuel; lia|].
    exists (u ++ r). split.
    - by apply sem_insert_cons.
    - by apply sem_retain_app. }
  unfold transform_step. rewrite EA, EB.
  destruct (xmin (headlen ra) (headlen rb)) as [k|] eqn:Hk.
  2:{ destruct ra, rb; try done. simpl in *. simplify_eq. eauto. }
  assert (xmin (headlen rb) (headlen ra) = Some k) as ->.
  { destruct (headlen ra), (headlen rb); simpl in *; try done. by rewrite Z.min_comm. }
  destruct (xmin_bounds _ _ _ Hk) as [HkA HkB].
  assert (0 ≤ k ≤ Z.of_nat (length s))%Z as Hks.
  { destruct (xmin_Some _ _ _ Hk) as [H|H].
    - apply (sem_headlen ra s _ k Ha EA H).
    - apply (sem_headlen rb s _ k Hb EB H). }
  destruct (sem_pop _ _ _ k Ha EA Hks HkA) as (ta' & -> & Ha').
  destruct (sem_pop _ _ _ k Hb EB Hks HkB) as (tb' & -> & Hb').
  destruct (IH _ _ _ _ _ Ha' Hb') as (r & H1 & H2).
  { assert (length (pop k ra) + length (pop k rb) < length ra + length rb); [|lia].
    pose proof (length_pop k ra). pose proof (length_pop k rb).
    destruct (xmin_Some _ _ _ Hk) as [Hx|Hx]; apply length_pop_headlen in Hx; lia. }
  unfold transform_emit.
  rewrite (passive_kind _ _ _ Ha EA), (passive_kind _ _ _ Hb EB).
  assert (Z.of_nat (length (take (Z.to_nat k) s)) = k) as Hlen.
  { rewrite length_take. lia. }
  destruct (isRetain' (head ra)), (isRetain' (head rb)); simpl negb; simpl andb; cbv iota.
  - exists (take (Z.to_nat k) s ++ r). split; by apply sem_retain_app.
  - exists r. rewrite sem_retain_0. split; [|done]. by apply sem_delete_app.
  - exists r. rewrite sem_retain_0. split; [done|]. by apply sem_delete_app.
  - exists r. by rewrite !sem_retain_0.
Qed.

(** *** compose, on the remaining operations *)

Lemma js_substr_take (t : jsstring) k :
  (0 ≤ k)%Z → js_substr t 0 k = take (Z.to_nat k) t.
Proof.
  intros Hk. unfold js_substr, js_rel_index.
  change (0 <? 0)%Z with false. cbv iota.
  rewrite (Z.min_l 0) by lia. change (Z.to_nat 0) with 0. rewrite drop_0.
  destruct (decide (k ≤ Z.of_nat (length t))%Z).
  - f_equal. lia.
  - rewrite !take_ge; [done|lia..].
Qed.

Lemma sem_out_headlen (l : TextOperation) s t n :
  sem l s = Some t → isDelete' (head l) = false → headlen l = Some n →
  (0 ≤ n ≤ Z.of_nat (length t))%Z.
Proof.
  destruct l as [|[] l]; simpl; try done.
  - case_bool_decide; [|done]. destruct (sem l _); [|done].
    intros [= <-] _ [= <-]. rewrite length_app, length_take. lia.
  - destruct (sem l _); [|done]. intros [= <-] _ [= <-]. rewrite length_app. lia.
Qed.

Lemma sem_pop_out (l : TextOperation) s t k :
  sem l s = Some t → isDelete' (head l) = false →
  (0 ≤ k ≤ Z.of_nat (length t))%Z → xle k (headlen l) →
  if isInsert' (head l)
  then sem (pop k l) s = Some (drop (Z.to_nat k) t) ∧
       take (Z.to_nat k) t = js_substr (text_of (head l)) 0 k
  else sem (pop k l) (drop (Z.to_nat k) s) = Some (drop (Z.to_nat k) t) ∧
       take (Z.to_nat k) t = take (Z.to_nat k) s ∧
       (k ≤ Z.of_nat (length s))%Z.
Proof.
  intros Hsem Hdel Hk Hle. destruct l as [|[n|u|n|] l]; simpl in *; try done.
  - simplify_eq. split_and!; [done..|lia].
  - case_bool_decide as Hn; [|done].
    destruct (sem l _) as [t0|] eqn:Hl; [|done]. simplify_eq/=.
    assert (length (take (Z.to_nat n) s) = Z.to_nat n) as Hlen.
    { rewrite length_take. lia. }
    split_and!; [|rewrite take_app_le, take_take by lia; f_equal; lia|lia].
    destruct (n - k <=? 0)%Z eqn:Hnk.
    + apply Z.leb_le in Hnk. assert (k = n) as -> by lia.
      by rewrite drop_app_length' by done.
    + apply Z.leb_gt in Hnk. simpl. rewrite length_drop.
      rewrite bool_decide_eq_true_2 by lia. rewrite drop_drop.
      replace (Z.to_nat k + Z.to_nat (n - k)) with (Z.to_nat n) by lia.
      rewrite Hl. simpl. f_equal.
      rewrite drop_app_le by lia. f_equal.
      rewrite take_drop_commute. do 2 f_equal. lia.
  - destruct (sem l _) as [t0|] eqn:Hl; [|done]. simplify_eq/=.
    rewrite js_substr_take by lia.
    split; [|by rewrite take_app_le by lia].
    destruct (Z.of_nat (length u) - k <=? 0)%Z eqn:Hnk.
    + apply Z.leb_le in Hnk. rewrite drop_app_length' by lia. done.
    + apply Z.leb_gt in Hnk. simpl. rewrite Hl. simpl.
      by rewrite drop_app_le by lia.
Qed.

Lemma active_kind (l : TextOperation) s t :
  sem l s = Some t → isDelete' (head l) = false →
  isRetain' (head l) = negb (isInsert' (head l)).
Proof. by destruct l as [|[] l]. Qed.

Lemma compose_emitted_sem fuel : ∀ ra rb s s1 s2,
  sem ra s = Some s1 → sem rb s1 = Some s2 →
  length ra + length rb ≤ fuel →
  sem (emitted compose_step fuel ra rb) s = Some s2.
Proof.
  induction fuel as [|fuel IH]; intros ra rb s s1 s2 Ha Hb Hfuel.
  { destruct ra, rb; simpl in Hfuel; try lia. simpl in *. by simplify_eq. }
  cbn [emitted]. unfold compose_step at 1.
  destruct (isDelete' (head ra)) eqn:EA.
  { destruct ra as [|[| | n |] ra]; try done. simpl in Ha |- *.
    case_bool_decide; [|done]. apply (IH _ _ _ _ _ Ha Hb). simpl in Hfuel. lia. }
  destruct (isInsert' (head rb)) eqn:EB.
  { destruct rb as [|[| u | |] rb]; try done. simpl in Hb |- *.
    destruct (sem rb s1) as [s2'|] eqn:Hb'; [|done]. simplify_eq/=.
    rewrite (IH _ _ _ _ _ Ha Hb'); [done|]. simpl in Hfuel. lia. }
  destruct (xmin (headlen ra) (headlen rb)) as [k|] eqn:Hk.
  2:{ destruct ra, rb; try done. simpl in *. by simplify_eq. }
  destruct (xmin_bounds _ _ _ Hk) as [HkA HkB].
  assert (0 ≤ k ≤ Z.of_nat (length s1))%Z as Hks.
  { destruct (xmin_Some _ _ _ Hk) as [H|H].
    - apply (sem_out_headlen ra s _ k Ha EA H).
    - apply (sem_headlen rb s1 _ k Hb EB H). }
  pose proof (sem_pop_out _ _ _ k Ha EA Hks HkA) as HA.
  destruct (sem_pop _ _ _ k Hb EB Hks HkB) as (s2' & -> & Hb').
  assert (length (pop k ra) + length (pop k rb) ≤ fuel) as Hfuel'.
  { assert (length (pop k ra) + length (pop k rb) < length ra + length rb); [|lia].
    pose proof (length_pop k ra). pose proof (length_pop k rb).
    destruct (xmin_Some _ _ _ Hk) as [Hx|Hx]; apply length_pop_headlen in Hx; lia. }
  unfold compose_emit.
  rewrite (active_kind _ _ _ Ha EA), (passive_kind _ _ _ Hb EB).
  destruct (isInsert' (head ra)) eqn:EI; simpl negb; cbv iota.
  - destruct HA as [Ha' Htake].
    pose proof (IH _ _ _ _ _ Ha' Hb' Hfuel') as HE.
    destruct (isRetain' (head rb)); simpl negb; cbv iota.
    + rewrite <- Htake. by apply sem_insert_cons.
    + by rewrite sem_retain_0.
  - destruct HA as (Ha' & Htake & Hlen).
    pose proof (IH _ _ _ _ _ Ha' Hb' Hfuel') as HE.
    rewrite <- (take_drop (Z.to_nat k) s) at 1.
    assert (Z.of_nat (length (take (Z.to_nat k) s)) = k) as Hlen'.
    { rewrite length_take. lia. }
    destruct (isRetain' (head rb)); simpl negb; cbv iota.
    + rewrite Htake. by apply sem_retain_app.
    + by apply sem_delete_app.
Qed.

End edits.

(** *** transform and compose in closed form *)

Lemma transform_sized (opA opB : TextOperation) side :
  Unknown ∉ opA → Unknown ∉ opB →
  TextType.transform opA opB side =
  Ok (normalize (normalize
        (emitted (transform_step side) (length opA + length opB) opA opB))).
Proof.
  intros HA HB. unfold TextType.transform.
  rewrite (proj2 (checkOp_Ok opA) HA), (proj2 (checkOp_Ok opB) HB). simpl.
  destruct (transform_emitted opA opB side HA HB) as (st & -> & ->). done.
Qed.

Lemma compose_sized (opA opB : TextOperation) :
  sized opA → sized opB →
  TextType.compose opA opB =
  Ok (normalize (normalize
        (emitted compose_step (length opA + length opB) opA opB))).
Proof.
  intros HA HB. unfold TextType.compose.
  rewrite (proj2 (checkOp_Ok opA)), (proj2 (checkOp_Ok opB)) by (by apply sized_Unknown).
  simpl.
  destruct (compose_emitted opA opB HA HB) as (st & -> & ->). done.
Qed.

(** *** Scanning an operation *)

Lemma traversed_app (l1 l2 : TextOperation) :
  traversed (l1 ++ l2) = (traversed l1 + traversed l2)%Z.
Proof. induction l1 as [|[] l1 IH]; simpl; lia. Qed.

Lemma traversed_nonneg (op : TextOperation) : sized op → (0 ≤ traversed op)%Z.
Proof. induction 1 as [|[] op [? Hc] _ IH]; simpl in *; lia. Qed.

Lemma sized_app_inv (l1 l2 : TextOperation) : sized (l1 ++ l2) → sized l1 ∧ sized l2.
Proof. apply Forall_app. Qed.

Lemma overruns_traversed (s : jsstring) (op : TextOperation) :
  sized op → overruns s op ↔ (traversed op > Z.of_nat (length s))%Z.
Proof.
  intros Hop. split.
  - intros (pre & c & post & -> & Hc & Hgt).
    apply sized_app_inv in Hop as [Hpre Hpost].
    inversion Hpost as [|? ? [_ Hlen] Hpost']; subst.
    pose proof (traversed_nonneg _ Hpost').
    rewrite traversed_app. destruct c; simpl in *; try lia; by destruct Hc.
  - assert (∀ i, (0 ≤ i ≤ Z.of_nat (length s))%Z →
                 (i + traversed op > Z.of_nat (length s))%Z →
                 ∃ pre c post, op = pre ++ c :: post ∧ (isRetain c ∨ isDelete c) ∧
                   (i + traversed pre + getLength c > Z.of_nat (length s))%Z) as H.
    { induction Hop as [|c op [Hc Hlen] Hop IH]; intros i Hi Hgt; simpl in *; [lia|].
      destruct c as [n|t|n|]; simpl in *; [| | |done].
      - destruct (decide (i + n > Z.of_nat (length s))%Z).
        + exists [], (Retain n), op. simpl. split_and!; [done|by left|lia].
        + destruct (IH (i + n)%Z) as (pre & c & post & -> & Hc' & Hgt'); [lia..|].
          exists (Retain n :: pre), c, post. simpl. split_and!; [done..|lia].
      - destruct (IH i) as (pre & c & post & -> & Hc' & Hgt'); [lia..|].
        exists (Insert t :: pre), c, post. simpl. split_and!; [done..|lia].
      - destruct (decide (i + n > Z.of_nat (length s))%Z).
        + exists [], (Delete n), op. simpl. split_and!; [done|by right|lia].
        + destruct (IH (i + n)%Z) as (pre & c & post & -> & Hc' & Hgt'); [lia..|].
          exists (Delete n :: pre), c, post. simpl. split_and!; [done..|lia]. }
    intros Hgt. destruct (H 0%Z) as (pre & c & post & ? & ? & ?); [lia..|].
    exists pre, c, post. split_and!; [done..|lia].
Qed.

Lemma sem_edited (s : jsstring) (op : TextOperation) i :
  sized op → i ≤ length s →
  match sem op (drop i s) with
  | Some r => (Z.of_nat i + traversed op ≤ Z.of_nat (length s))%Z ∧ r = edited s i op
  | None => (Z.of_nat i + traversed op > Z.of_nat (length s))%Z
  end.
Proof.
  intros Hop. revert i. induction Hop as [|c op [Hc Hlen] Hop IH]; intros i Hi; simpl.
  { split; [lia|done]. }
  destruct c as [n|t|n|]; simpl in *; [| | |done].
  - rewrite length_drop. pose proof (traversed_nonneg _ Hop).
    case_bool_decide as Hn; [|lia].
    rewrite drop_drop. specialize (IH (i + Z.to_nat n)).
    destruct (sem op _) as [r|]; simpl.
    + destruct IH as [? ->]; [lia|]. split; [lia|done].
    + lia.
  - specialize (IH i Hi). destruct (sem op _) as [r|]; simpl; [|done].
    by destruct IH as [? ->].
  - rewrite length_drop. pose proof (traversed_nonneg _ Hop).
    case_bool_decide as Hn; [|lia].
    rewrite drop_drop. specialize (IH (i + Z.to_nat n)).
    destruct (sem op _) as [r|]; simpl.
    + destruct IH as [? ->]; [lia|]. split; [lia|done].
    + lia.
Qed.

(** *** The loops exit *)

Section while_exits.
Import TextType.
Variables (opA opB : TextOperation) (body : cursor → cursor).

Local Abbreviation todo st := ((length opA - iA st) + (length opB - iB st)).

Hypothesis body_progress : ∀ st,
  iA st < length opA ∨ iB st < length opB → todo (body st) < todo st.

Lemma while_exits fuel st : todo st ≤ fuel → is_Some (while fuel opA opB body st).
Proof using body_progress.
  revert st. induction fuel as [|fuel IH]; intros st Hfuel; simpl.
  - rewrite !bool_decide_eq_false_2 by lia. by eexists.
  - destruct (bool_decide (iA st < length opA) || bool_decide (iB st < length opB)) eqn:Hc;
      [|by eexists].
    apply IH. apply orb_true_iff in Hc.
    rewrite !bool_decide_eq_true in Hc. pose proof (body_progress st Hc). lia.
Qed.
End while_exits.

Section progress.
Import TextType.

Lemma advance_progress opA opB k out st :
  xsub (getLength' (opA !! iA st)) (offsetA st) = Some k ∨
  xsub (getLength' (opB !! iB st)) (offsetB st) = Some k →
  (length opA - iA (advance opA opB (opA !! iA st) (opB !! iB st) k out st)) +
  (length opB - iB (advance opA opB (opA !! iA st) (opB !! iB st) k out st))
  < (length opA - iA st) + (length opB - iB st).
Proof.
  intros Hk. simpl.
  assert (∀ (op : TextOperation) i off,
            xsub (getLength' (op !! i)) off = Some k →
            bool_decide (i < length op) && xge (off + k) (getLength' (op !! i)) = true
            ∧ i < length op) as Hdone.
  { intros op i off H. destruct (op !! i) as [c|] eqn:Hc; simplify_eq/=.
    apply lookup_lt_Some in Hc. rewrite bool_decide_eq_true_2 by done.
    split; [|done]. simpl. apply Z.leb_le. lia. }
  assert (∀ (op : TextOperation) i (d : bool),
            length op - (if bool_decide (i < length op) && d then i + 1 else i)
            ≤ length op - i) as Hle.
  { intros op i d. destruct (_ && _); lia. }
  destruct Hk as [Hk|Hk]; apply Hdone in Hk as [-> ?].
  - pose proof (Hle opB (iB st) (xge (offsetB st + k) (getLength' (opB !! iB st)))). lia.
  - pose proof (Hle opA (iA st) (xge (offsetA st + k) (getLength' (opA !! iA st)))). lia.
Qed.

Lemma compose_body_progress opA opB st :
  iA st < length opA ∨ iB st < length opB →
  (length opA - iA (compose_body opA opB st)) + (length opB - iB (compose_body opA opB st))
  < (length opA - iA st) + (length opB - iB st).
Proof.
  intros Hcond. unfold compose_body.
  destruct (isDelete' (opA !! iA st)) eqn:EA.
  { apply isDelete'_Some in EA as [d Hd]. apply lookup_lt_Some in Hd. simpl. lia. }
  destruct (isInsert' (opB !! iB st)) eqn:EB.
  { apply isInsert'_Some in EB as [t Ht]. apply lookup_lt_Some in Ht. simpl. lia. }
  destruct (xmin _ _) as [k|] eqn:Hk.
  - apply advance_progress. by apply xmin_Some.
  - destruct (opA !! iA st) eqn:HA, (opB !! iB st) eqn:HB; try done.
    apply lookup_ge_None in HA, HB. lia.
Qed.

Lemma compose_total (opA opB : TextOperation) :
  Unknown ∉ opA → Unknown ∉ opB → ∃ r, compose opA opB = Ok r.
Proof.
  intros HA HB. unfold compose.
  rewrite (proj2 (checkOp_Ok opA) HA), (proj2 (checkOp_Ok opB) HB). simpl.
  destruct (while_exits opA opB (compose_body opA opB) (compose_body_progress opA opB)
              (length opA + length opB) start) as [st ->]; [simpl; lia|].
  by eexists.
Qed.
End progress.

Lemma apply_loop_Err (s : jsstring) (op : TextOperation) acc e :
  TextType.apply_loop s op acc = Err e → e = OpOutOfBounds.
Proof.
  revert acc. induction op as [|c op IH]; intros [res index]; simpl; [done|].
  destruct c; simpl; repeat case_match; try done; try apply IH; by intros [= <-].
Qed.

Lemma checkOp_cases (op : TextOperation) :
  (checkOp op = Ok tt ∧ Unknown ∉ op) ∨ (checkOp op = Err OpMalformed ∧ Unknown ∈ op).
Proof.
  destruct (checkOp op) as [[]|e] eqn:H.
  - left. split; [done|]. by apply checkOp_Ok.
  - right. apply checkOp_Err in H as [-> ?]. done.
Qed.

(** ** The tests of the repository, on the embedding *)

(** core/test/text.test.ts *)

Example test_apply_insert : TextType.apply (str "") [Insert (str "Hello")] = Ok (str "Hello").
Proof. reflexivity. Qed.

Example test_apply_insert_at_position :
  TextType.apply (str "Hello") [Retain 5; Insert (str " World")] = Ok (str "Hello World").
Proof. reflexivity. Qed.

Example test_apply_delete :
  TextType.apply (str "Hello") [Retain 1; Delete 1; Retain 3] = Ok (str "Hllo").
Proof. reflexivity. Qed.

Example test_apply_mixed :
  TextType.apply (str "Hello World")
    [Retain 2; Insert (str "y"); Delete 2; Retain 1; Delete 6] = Ok (str "Heyo").
Proof. reflexivity. Qed.

Example test_apply_retain_out_of_bounds :
  TextType.apply (str "Short") [Retain 100] = Err OpOutOfBounds.
Proof. reflexivity. Qed.

Example test_apply_delete_out_of_bounds :
  TextType.apply (str "Short") [Delete 100] = Err OpOutOfBounds.
Proof. reflexivity. Qed.

Example test_apply_empty : TextType.apply (str "Test") [] = Ok (str "Test").
Proof. reflexivity. Qed.

Example test_compose_inserts :
  TextType.compose [Insert (str "Hello")] [Retain 5; Insert (str " World")]
  = Ok [Insert (str "Hello World")].
Proof. reflexivity. Qed.

Example test_compose_insert_delete :
  TextType.compose [Insert (str "Hello")] [Retain 1; Delete 1; Retain 3]
  = Ok [Insert (str "Hllo")].
Proof. reflexivity. Qed.

Example test_compose_delete_insert :
  TextType.compose [Delete 5] [Insert (str "World")] = Ok [Delete 5; Insert (str "World")].
Proof. reflexivity. Qed.

Example test_compose_complex :
  TextType.compose [Retain 1; Delete 1; Retain 3] [Retain 4; Insert (str "!")]
  = Ok [Retain 1; Delete 1; Retain 3; Insert (str "!")].
Proof. reflexivity. Qed.

Example test_compose_cancel :
  TextType.compose [Insert (str "a")] [Delete 1] = Ok [].
Proof. reflexivity. Qed.

Example test_transform_insert_delete :
  TextType.transform [Retain 1; Insert (str "A"); Retain 1] [Delete 2] Left
  = Ok [Insert (str "A")].
Proof. reflexivity. Qed.

Example test_transform_delete_insert :
  TextType.transform [Delete 2] [Retain 1; Insert (str "B"); Retain 1] Left
  = Ok [Delete 1; Retain 1; Delete 1].
Proof. reflexivity. Qed.

Example test_transform_delete_delete :
  TextType.transform [Delete 2] [Retain 1; Delete 2] Left = Ok [Delete 1].
Proof. reflexivity. Qed.

Example test_normalize :
  normalize [Retain 1; Retain 2] = [Retain 3] ∧
  normalize [Insert (str "a"); Insert (str "b")] = [Insert (str "ab")] ∧
  normalize [Delete 1; Delete 2] = [Delete 3] ∧
  normalize [Retain 0; Insert []; Delete 0; Retain 1] = [Retain 1].
Proof. split_and!; reflexivity. Qed.

(** server/test/server.test.ts *)

Example test_accept_latest_revision :
  (Server.submitOperation "doc1" [Insert (str "Hello")] 0 test_server).2
  = Ok {| Server.op := [Insert (str "Hello")]; Server.revision := 1 |} ∧
  (MemoryBackend.getHistory "doc1" 0 None (Server.backend test_server_1)).2
  = Ok [[Insert (str "Hello")]].
Proof. split; reflexivity. Qed.

Example test_transform_concurrent :
  (Server.submitOperation "doc1" [Insert (str "World")] 0 test_server_1).2
  = Ok {| Server.op := [Retain 5; Insert (str "World")]; Server.revision := 2 |}.
Proof. reflexivity. Qed.

Example test_reject_invalid_revision :
  (Server.submitOperation "doc1" [Insert (str "Hello")] 1 test_server).2
  = Err RevisionFromFuture.
Proof. reflexivity. Qed.

(** ** The claims on the text type *)

(** C1 (TP1, convergence of transform).  For every snapshot [s] and all
    well-formed operations [a] and [b] that both apply to [s], both
    transforms succeed, both paths apply, and
    [apply(apply(s, a), transform(b, a, "right"))] equals
    [apply(apply(s, b), transform(a, b, "left"))]. *)
Theorem transform_convergence (s : jsstring) (a b : TextOperation) (sa sb : jsstring) :
  well_formed a → well_formed b →
  TextType.apply s a = Ok sa → TextType.apply s b = Ok sb →
  ∃ a' b' r,
    TextType.transform a b Left = Ok a' ∧
    TextType.transform b a Right = Ok b' ∧
    TextType.apply sa b' = Ok r ∧
    TextType.apply sb a' = Ok r.
Proof.
  intros Ha%well_formed_sized Hb%well_formed_sized Hsa Hsb.
  apply apply_Ok_sem in Hsa; [|done]. apply apply_Ok_sem in Hsb; [|done].
  pose proof (sized_Unknown _ Ha) as Hua. pose proof (sized_Unknown _ Hb) as Hub.
  destruct (tp1_emitted (length a + length b) a b s sa sb Hsa Hsb) as (r & H1 & H2);
    [done|].
  eexists _, _, r. split_and!.
  - by apply transform_sized.
  - by apply transform_sized.
  - apply apply_sem. do 2 apply sem_normalize.
    by rewrite (Nat.add_comm (length b)).
  - apply apply_sem. by do 2 apply sem_normalize.
Qed.

Lemma transform_convergence_witness :
  well_formed [Retain 2; Insert (str "X"); Retain 8] ∧
  well_formed [Retain 2; Delete 2; Retain 6] ∧
  TextType.apply (str "1234567890") [Retain 2; Insert (str "X"); Retain 8]
    = Ok (str "12X34567890") ∧
  TextType.apply (str "1234567890") [Retain 2; Delete 2; Retain 6]
    = Ok (str "12567890") ∧
  ∃ a' b' r,
    TextType.transform [Retain 2; Insert (str "X"); Retain 8]
                       [Retain 2; Delete 2; Retain 6] Left = Ok a' ∧
    TextType.transform [Retain 2; Delete 2; Retain 6]
                       [Retain 2; Insert (str "X"); Retain 8] Right = Ok b' ∧
    TextType.apply (str "12X34567890") b' = Ok r ∧
    TextType.apply (str "12567890") a' = Ok r.
Proof.
  assert (well_formed [Retain 2; Insert (str "X"); Retain 8]) as Ha
    by (repeat constructor; done).
  assert (well_formed [Retain 2; Delete 2; Retain 6]) as Hb
    by (repeat constructor; done).
  split_and!; [done|done|reflexivity|reflexivity|].
  apply (transform_convergence (str "1234567890")); [done|done|reflexivity|reflexivity].
Defined.

(** C2 (compose).  For every snapshot [s] and all well-formed operations [a]
    and [b] such that [a] applies to [s] and [b] applies to [apply(s, a)],
    [compose(a, b)] succeeds and [apply(s, compose(a, b))] equals
    [apply(apply(s, a), b)]. *)
Theorem compose_apply (s : jsstring) (a b : TextOperation) (sa sab : jsstring) :
  well_formed a → well_formed b →
  TextType.apply s a = Ok sa → TextType.apply sa b = Ok sab →
  ∃ ab, TextType.compose a b = Ok ab ∧ TextType.apply s ab = Ok sab.
Proof.
  intros Ha%well_formed_sized Hb%well_formed_sized Hsa Hsab.
  apply apply_Ok_sem in Hsa; [|done]. apply apply_Ok_sem in Hsab; [|done].
  eexists. split; [by apply compose_sized|].
  apply apply_sem. do 2 apply sem_normalize.
  by eapply compose_emitted_sem.
Qed.

Lemma compose_apply_witness :
  well_formed [Retain 1; Delete 1; Retain 3] ∧
  well_formed [Retain 4; Insert (str "!")] ∧
  TextType.apply (str "Hello") [Retain 1; Delete 1; Retain 3] = Ok (str "Hllo") ∧
  TextType.apply (str "Hllo") [Retain 4; Insert (str "!")] = Ok (str "Hllo!") ∧
  ∃ ab, TextType.compose [Retain 1; Delete 1; Retain 3] [Retain 4; Insert (str "!")] = Ok ab ∧
        TextType.apply (str "Hello") ab = Ok (str "Hllo!").
Proof.
  assert (well_formed [Retain 1; Delete 1; Retain 3]) as Ha
    by (repeat constructor; done).
  assert (well_formed [Retain 4; Insert (str "!")]) as Hb
    by (repeat constructor; done).
  split_and!; [done|done|reflexivity|reflexivity|].
  apply (compose_apply (str "Hello") _ _ (str "Hllo")); [done|done|reflexivity|reflexivity].
Defined.

(** C5 (bounds of apply).  For every snapshot and every well-formed operation
    [op], [apply] fails with [OpOutOfBounds] exactly when, scanning [op] left
    to right, some [Retain] or [Delete] would advance the index past the
    length of the snapshot; otherwise it returns the edited string, in which
    the tail of the snapshot that [op] does not traverse is copied through. *)
Theorem apply_out_of_bounds (snapshot : jsstring) (op : TextOperation) :
  well_formed op →
  (TextType.apply snapshot op = Err OpOutOfBounds ↔ overruns snapshot op) ∧
  (¬ overruns snapshot op → TextType.apply snapshot op = Ok (edited snapshot 0 op)).
Proof.
  intros Hop%well_formed_sized.
  rewrite (overruns_traversed _ _ Hop), (apply_sized _ _ Hop).
  pose proof (sem_edited snapshot op 0 Hop) as H. rewrite drop_0 in H.
  destruct (sem op snapshot) as [r|].
  - destruct H as [? ->]; [lia|]. split; [|done]. split; [done|lia].
  - split; [|lia]. split; [lia|done].
Qed.

Lemma apply_out_of_bounds_witness :
  well_formed [Retain 1; Delete 1] ∧
  (TextType.apply (str "Hello") [Retain 1; Delete 1] = Err OpOutOfBounds
   ↔ overruns (str "Hello") [Retain 1; Delete 1]) ∧
  (¬ overruns (str "Hello") [Retain 1; Delete 1] →
   TextType.apply (str "Hello") [Retain 1; Delete 1]
   = Ok (edited (str "Hello") 0 [Retain 1; Delete 1])).
Proof.
  assert (well_formed [Retain 1; Delete 1]) as Hop by (repeat constructor; done).
  split; [done|]. apply (apply_out_of_bounds (str "Hello") _ Hop).
Defined.

(** C7 (the tie of two inserts).
    [transform([{r:3},{i:"A"}], [{r:3},{i:"B"}], "left")] is
    [[{r:3},{i:"A"},{r:1}]], and
    [transform([{r:3},{i:"B"}], [{r:3},{i:"A"}], "right")] is
    [[{r:4},{i:"B"}]]: the insert of the left operand goes first, the
    right operand retains the length of the other insert. *)
Theorem transform_insert_tie :
  TextType.transform [Retain 3; Insert (str "A")] [Retain 3; Insert (str "B")] Left
    = Ok [Retain 3; Insert (str "A"); Retain 1] ∧
  TextType.transform [Retain 3; Insert (str "B")] [Retain 3; Insert (str "A")] Right
    = Ok [Retain 4; Insert (str "B")].
Proof. split; reflexivity. Qed.

(** C8 fails as stated: [[{r:1},{r:2}]] is not normalized and has no unknown
    component, and [apply], [transform] and [compose] accept it. *)
Lemma malformed_counterexample :
  normalized [Retain 1; Retain 2] = false ∧
  TextType.apply (str "abc") [Retain 1; Retain 2] = Ok (str "abc") ∧
  TextType.transform [Retain 1; Retain 2] [] Left = Ok [Retain 3] ∧
  TextType.compose [Retain 1; Retain 2] [] = Ok [Retain 3].
Proof. split_and!; reflexivity. Qed.

(** C8, amended (failures with OpMalformed).  [apply] fails with
    [OpMalformed] exactly when its operation contains an unknown component;
    [transform] and [compose] fail exactly when one of their operations
    contains an unknown component, and then with [OpMalformed]; in
    particular they never fail on well-formed operations.  An operation that
    is not normalized is accepted. *)
Theorem malformed_iff_unknown :
  (∀ s op, TextType.apply s op = Err OpMalformed ↔ Unknown ∈ op) ∧
  (∀ a b side e, TextType.transform a b side = Err e ↔
                 e = OpMalformed ∧ (Unknown ∈ a ∨ Unknown ∈ b)) ∧
  (∀ a b e, TextType.compose a b = Err e ↔
            e = OpMalformed ∧ (Unknown ∈ a ∨ Unknown ∈ b)) ∧
  (∀ a b, well_formed a → well_formed b →
          (∀ side, ∃ r, TextType.transform a b side = Ok r) ∧
          (∃ r, TextType.compose a b = Ok r)).
Proof.
  split_and!.
  - intros s op. unfold TextType.apply.
    destruct (checkOp_cases op) as [[-> Hop]|[-> Hop]]; simpl; [|done].
    split; [|done].
    destruct (TextType.apply_loop s op _) as [[res index]|e] eqn:Hloop; simpl.
    + by case_match.
    + apply apply_loop_Err in Hloop as ->. done.
  - intros a b side e.
    destruct (checkOp_cases a) as [[Ha Hua]|[Ha Hua]].
    + destruct (checkOp_cases b) as [[Hb Hub]|[Hb Hub]].
      * rewrite transform_sized by done. split; [done|by intros [_ [?|?]]].
      * unfold TextType.transform. rewrite Ha, Hb. simpl.
        split; [intros [= <-]; auto|by intros [-> _]].
    + unfold TextType.transform. rewrite Ha. simpl.
      split; [intros [= <-]; auto|by intros [-> _]].
  - intros a b e.
    destruct (checkOp_cases a) as [[Ha Hua]|[Ha Hua]].
    + destruct (checkOp_cases b) as [[Hb Hub]|[Hb Hub]].
      * destruct (compose_total a b Hua Hub) as [r ->]. split; [done|by intros [_ [?|?]]].
      * unfold TextType.compose. rewrite Ha, Hb. simpl.
        split; [intros [= <-]; auto|by intros [-> _]].
    + unfold TextType.compose. rewrite Ha. simpl.
      split; [intros [= <-]; auto|by intros [-> _]].
  - intros a b Ha%well_formed_sized%sized_Unknown Hb%well_formed_sized%sized_Unknown.
    split.
    + intros side. rewrite transform_sized by done. by eexists.
    + by apply compose_total.
Qed.

Lemma malformed_iff_unknown_witness :
  well_formed [Retain 1; Insert (str "A"); Retain 1] ∧
  well_formed [Delete 2] ∧
  (∀ side, ∃ r, TextType.transform [Retain 1; Insert (str "A"); Retain 1] [Delete 2] side = Ok r) ∧
  (∃ r, TextType.compose [Retain 1; Insert (str "A"); Retain 1] [Delete 2] = Ok r).
Proof.
  assert (well_formed [Retain 1; Insert (str "A"); Retain 1]) as Ha
    by (repeat constructor; done).
  assert (well_formed [Delete 2]) as Hb by (repeat constructor; done).
  split_and!; [done|done|..];
    apply (proj2 (proj2 (proj2 malformed_iff_unknown)) _ _ Ha Hb).
Defined.

(** ** The memory adapter and the server *)

Section server.
Context {Snapshot Op : Type}.
Implicit Types (b : MemoryBackend.t Snapshot Op).
Implicit Types (srv : Server.t (MemoryBackend.t Snapshot Op) Snapshot Op).
Implicit Types (type : OTType Snapshot Op).

(** *** The memory adapter *)

(** C10 (createDocument on the memory adapter).  For every state of the
    backend and every [docId], also one that names an existing document,
    [createDocument] does not fail; afterwards the record of [docId] is
    [{ type, v: 0, data: initialSnapshot }] and its log is empty, whatever
    was committed before; the other documents are untouched. *)
Theorem createDocument_replaces b docId ty (initialSnapshot : Snapshot) :
  ∃ b', MemoryBackend.createDocument docId ty initialSnapshot b = (b', Ok tt) ∧
        MemoryBackend.documents b' !! docId
          = Some {| type := ty; v := 0; data := initialSnapshot |} ∧
        MemoryBackend.history b' !! docId = Some [] ∧
        MemoryBackend.getHistory docId 0 None b' = (b', Ok []) ∧
        ∀ other, other ≠ docId →
          MemoryBackend.documents b' !! other = MemoryBackend.documents b !! other ∧
          MemoryBackend.history b' !! other = MemoryBackend.history b !! other.
Proof.
  eexists. split; [reflexivity|]. simpl. split_and!.
  - by rewrite lookup_insert_eq.
  - by rewrite lookup_insert_eq.
  - unfold MemoryBackend.getHistory. simpl. by rewrite lookup_insert_eq.
  - intros other Hne. by rewrite !lookup_insert_ne.
Qed.

(** C4 (atomic commit of the memory adapter).  For every document of the
    backend, with record [doc] and log [ops]: when [doc.v] is
    [newRevision - 1], [saveOperation] succeeds, appends [op] to the log
    and sets [v] to [newRevision]; otherwise it fails with the concurrency
    error and leaves the record and the log as they were. *)
Theorem saveOperation_atomic b docId (op : Op) newRevision doc ops :
  MemoryBackend.documents b !! docId = Some doc →
  MemoryBackend.history b !! docId = Some ops →
  (v doc = (newRevision - 1)%Z →
   MemoryBackend.saveOperation docId op newRevision b =
   ({| MemoryBackend.documents :=
         <[docId := {| type := type doc; v := newRevision; data := data doc |}]>
           (MemoryBackend.documents b);
       MemoryBackend.history := <[docId := ops ++ [op]]> (MemoryBackend.history b) |},
    Ok tt)) ∧
  (v doc ≠ (newRevision - 1)%Z →
   MemoryBackend.saveOperation docId op newRevision b = (b, Err ConcurrencyConflict)).
Proof.
  intros Hdoc Hops. unfold MemoryBackend.saveOperation. rewrite Hdoc, Hops. split; intros Hv.
  - by rewrite bool_decide_eq_false_2 by lia.
  - by rewrite bool_decide_eq_true_2 by lia.
Qed.

Lemma consistent_new : consistent (MemoryBackend.new (Snapshot:=Snapshot) (Op:=Op)).
Proof. intros docId doc. simpl. by rewrite lookup_empty. Qed.

Lemma consistent_createDocument b docId ty (initialSnapshot : Snapshot) :
  consistent b →
  consistent (MemoryBackend.createDocument docId ty initialSnapshot b).1.
Proof.
  intros Hb other doc. simpl. destruct (decide (docId = other)) as [->|Hne].
  - rewrite !lookup_insert_eq. intros [= <-]. by exists [].
  - rewrite !lookup_insert_ne by done. apply Hb.
Qed.

Lemma consistent_saveOperation b docId (op : Op) newRevision :
  consistent b →
  consistent (MemoryBackend.saveOperation docId op newRevision b).1.
Proof.
  intros Hb. unfold MemoryBackend.saveOperation.
  destruct (MemoryBackend.documents b !! docId) as [doc|] eqn:Hdoc; [|done].
  case_bool_decide as Hv; [done|].
  destruct (Hb _ _ Hdoc) as (ops & Hops & Hlen). rewrite Hops. simpl.
  intros other doc'. simpl. destruct (decide (docId = other)) as [->|Hne].
  - rewrite !lookup_insert_eq. intros [= <-]. exists (ops ++ [op]).
    split; [done|]. simpl. rewrite length_app. simpl.
    lia.
  - rewrite !lookup_insert_ne by done. apply Hb.
Qed.

(** *** The server *)

Lemma catch_up_fold type (op : Op) (entries : list Op) :
  Server.catch_up type op entries = fold_transform type op entries.
Proof.
  unfold fold_transform. revert op. induction entries as [|past entries IH]; intros op.
  - done.
  - simpl. destruct (Interfaces.transform type op past Right) as [op'|e]; simpl.
    + apply IH.
    + clear. induction entries as [|x entries IH]; simpl; done.
Qed.

Lemma js_slice_log_range (log : list Op) revision :
  (0 ≤ revision)%Z →
  js_slice log revision None = log_range log revision (Z.of_nat (length log)).
Proof.
  intros Hrev. unfold js_slice, log_range, js_rel_index.
  replace (revision <? 0)%Z with false by lia.
  destruct (decide (revision ≤ Z.of_nat (length log))%Z).
  - by rewrite Z.min_l by lia.
  - rewrite !drop_ge by lia. by rewrite !take_nil.
Qed.

(** C6 (rejected submissions).  For every [submitOperation] on a known
    document: when the type name of its record is not registered the call
    fails with [TypeUnknown]; when the type is registered and [revision]
    is greater than [v] it fails with [RevisionFromFuture]; in both cases
    the server, the record and the log are as before the call. *)
Theorem submitOperation_rejects srv docId (op : Op) revision record :
  MemoryBackend.documents (Server.backend srv) !! docId = Some record →
  (Server.types srv !! type record = None →
   Server.submitOperation docId op revision srv = (srv, Err TypeUnknown)) ∧
  (∀ ty, Server.types srv !! type record = Some ty → (revision > v record)%Z →
   Server.submitOperation docId op revision srv = (srv, Err RevisionFromFuture)).
Proof.
  intros Hdoc. destruct srv as [b types]. simpl in *.
  unfold Server.submitOperation, Server.on_backend, mbind, async_bind. simpl.
  unfold MemoryBackend.getRecord. rewrite Hdoc. unfold gets. simpl. split.
  - by intros ->.
  - intros ty -> Hrev. by replace (revision >? v record)%Z with true by lia.
Qed.

(** C3 (catch-up and commit).  For every [submitOperation] on a known
    document with a registered type, whose log has the [v] entries of its
    record (see [reachable_consistent]), at a revision [0 <= revision <= v]:
    when [revision < v] the committed and returned operation is the left
    fold of [transform(acc, past_op, "right")] over the log entries at
    indices [revision .. v-1], oldest first (and a throwing [transform]
    fails the call without a commit); when [revision = v] it is [op]
    itself; the returned revision is [v + 1].  The commit appends the
    operation to the log and sets [v] to [v + 1]. *)
Theorem submitOperation_catch_up srv docId (op : Op) revision record ty log :
  MemoryBackend.documents (Server.backend srv) !! docId = Some record →
  MemoryBackend.history (Server.backend srv) !! docId = Some log →
  v record = Z.of_nat (length log) →
  Server.types srv !! type record = Some ty →
  (0 ≤ revision ≤ v record)%Z →
  let committed (op' : Op) :=
    {| Server.backend :=
         {| MemoryBackend.documents :=
              <[docId := {| type := type record; v := (v record + 1)%Z; data := data record |}]>
                (MemoryBackend.documents (Server.backend srv));
            MemoryBackend.history :=
              <[docId := log ++ [op']]> (MemoryBackend.history (Server.backend srv)) |};
       Server.types := Server.types srv |} in
  ((revision < v record)%Z →
   match fold_transform ty op (log_range log revision (v record)) with
   | Ok op' =>
     Server.submitOperation docId op revision srv =
     (committed op', Ok {| Server.op := op'; Server.revision := (v record + 1)%Z |})
   | Err e => Server.submitOperation docId op revision srv = (srv, Err e)
   end) ∧
  (revision = v record →
   Server.submitOperation docId op revision srv =
   (committed op, Ok {| Server.op := op; Server.revision := (v record + 1)%Z |})).
Proof.
  intros Hdoc Hlog Hv Hty Hrev committed. subst committed.
  destruct srv as [b types]. simpl in *.
  unfold Server.submitOperation, Server.on_backend, mbind, async_bind. simpl.
  unfold MemoryBackend.getRecord. rewrite Hdoc. unfold gets. simpl. rewrite Hty.
  replace (revision >? v record)%Z with false by lia.
  split.
  - intros Hlt. replace (revision <? v record)%Z with true by lia.
    simpl. unfold MemoryBackend.getHistory. rewrite Hlog. simpl.
    rewrite js_slice_log_range by lia. rewrite <- Hv.
    unfold settle. rewrite catch_up_fold.
    destruct (fold_transform _ _ _) as [op'|e]; [|done].
    simpl. unfold MemoryBackend.saveOperation. rewrite Hdoc, Hlog.
    by rewrite bool_decide_eq_false_2 by (intros Hne; by apply Hne).
  - intros ->. replace (v record <? v record)%Z with false by lia.
    simpl. unfold MemoryBackend.saveOperation. rewrite Hdoc, Hlog.
    by rewrite bool_decide_eq_false_2 by (intros Hne; by apply Hne).
Qed.

(** C9, amended (registerType).  [registerType] never fails: it stores the
    type under its name, in place of whatever type had that name, and
    leaves the other names and the backend alone; registering the same
    type again changes nothing. *)
Theorem registerType_replaces srv type :
  ∃ srv', Server.registerType type srv = (srv', Ok tt) ∧
          Server.types srv' !! Interfaces.name type = Some type ∧
          Server.backend srv' = Server.backend srv ∧
          (∀ other, other ≠ Interfaces.name type →
             Server.types srv' !! other = Server.types srv !! other) ∧
          Server.registerType type srv' = (srv', Ok tt).
Proof.
  eexists. split; [reflexivity|]. simpl. split_and!.
  - by rewrite lookup_insert_eq.
  - done.
  - intros other Hne. by rewrite lookup_insert_ne.
  - unfold Server.registerType. simpl. by rewrite insert_insert_eq.
Qed.

(** X15 (the memory adapter is always consistent).  In every state that a
    memory adapter reaches from the empty one through [createDocument] and
    [saveOperation], whatever their arguments and outcomes, every record
    has a log of exactly as many entries as its revision. *)
Lemma reachable_consistent b : reachable b → consistent b.
Proof.
  induction 1; auto using consistent_new, consistent_createDocument,
    consistent_saveOperation.
Qed.
End server.

(** *** The claims on the server, at the documents of the tests *)

Lemma createDocument_replaces_witness :
  ∃ b', MemoryBackend.createDocument "doc1" "text" (str "fresh")
          (Server.backend test_server_1) = (b', Ok tt) ∧
        MemoryBackend.documents b' !! "doc1"
          = Some {| type := "text"; v := 0; data := str "fresh" |} ∧
        MemoryBackend.history b' !! "doc1" = Some [] ∧
        MemoryBackend.getHistory "doc1" 0 None b' = (b', Ok []) ∧
        ∀ other, other ≠ "doc1" →
          MemoryBackend.documents b' !! other
            = MemoryBackend.documents (Server.backend test_server_1) !! other ∧
          MemoryBackend.history b' !! other
            = MemoryBackend.history (Server.backend test_server_1) !! other.
Proof.
  apply (createDocument_replaces (Server.backend test_server_1) "doc1" "text" (str "fresh")).
Defined.

Lemma saveOperation_atomic_witness :
  MemoryBackend.documents (Server.backend test_server_1) !! "doc1"
    = Some {| type := "text"; v := 1; data := [] |} ∧
  MemoryBackend.history (Server.backend test_server_1) !! "doc1"
    = Some [[Insert (str "Hello")]] ∧
  MemoryBackend.saveOperation "doc1" [Retain 5; Insert (str "!")] 3
    (Server.backend test_server_1)
    = (Server.backend test_server_1, Err ConcurrencyConflict) ∧
  MemoryBackend.saveOperation "doc1" [Retain 5; Insert (str "!")] 2
    (Server.backend test_server_1)
    = ({| MemoryBackend.documents :=
            <["doc1" := {| type := "text"; v := 2; data := [] |}]>
              (MemoryBackend.documents (Server.backend test_server_1));
          MemoryBackend.history :=
            <["doc1" := [[Insert (str "Hello")]; [Retain 5; Insert (str "!")]]]>
              (MemoryBackend.history (Server.backend test_server_1)) |},
       Ok tt).
Proof.
  assert (MemoryBackend.documents (Server.backend test_server_1) !! "doc1"
          = Some {| type := "text"; v := 1; data := [] |}) as Hdoc by reflexivity.
  assert (MemoryBackend.history (Server.backend test_server_1) !! "doc1"
          = Some [[Insert (str "Hello")]]) as Hlog by reflexivity.
  split_and!; [done|done|..].
  - apply (saveOperation_atomic _ _ [Retain 5; Insert (str "!")] 3 _ _ Hdoc Hlog). done.
  - apply (saveOperation_atomic _ _ [Retain 5; Insert (str "!")] 2 _ _ Hdoc Hlog). done.
Defined.

Lemma submitOperation_rejects_witness :
  MemoryBackend.documents (Server.backend test_server) !! "doc1"
    = Some {| type := "text"; v := 0; data := [] |} ∧
  Server.types test_server !! "text" = Some TextType.OT ∧
  Server.submitOperation "doc1" [Insert (str "Hello")] 1 test_server
    = (test_server, Err RevisionFromFuture).
Proof.
  assert (MemoryBackend.documents (Server.backend test_server) !! "doc1"
          = Some {| type := "text"; v := 0; data := [] |}) as Hdoc by reflexivity.
  assert (Server.types test_server !! "text" = Some TextType.OT) as Hty by reflexivity.
  split_and!; [done|done|].
  apply (proj2 (submitOperation_rejects test_server "doc1" [Insert (str "Hello")] 1 _ Hdoc)
           TextType.OT Hty).
  done.
Defined.

Lemma submitOperation_catch_up_witness :
  MemoryBackend.documents (Server.backend test_server_1) !! "doc1"
    = Some {| type := "text"; v := 1; data := [] |} ∧
  MemoryBackend.history (Server.backend test_server_1) !! "doc1"
    = Some [[Insert (str "Hello")]] ∧
  Server.types test_server_1 !! "text" = Some TextType.OT ∧
  Server.submitOperation "doc1" [Insert (str "World")] 0 test_server_1
    = ({| Server.backend :=
            {| MemoryBackend.documents :=
                 <["doc1" := {| type := "text"; v := 2; data := [] |}]>
                   (MemoryBackend.documents (Server.backend test_server_1));
               MemoryBackend.history :=
                 <["doc1" := [[Insert (str "Hello")]; [Retain 5; Insert (str "World")]]]>
                   (MemoryBackend.history (Server.backend test_server_1)) |};
          Server.types := Server.types test_server_1 |},
       Ok {| Server.op := [Retain 5; Insert (str "World")]; Server.revision := 2 |}).
Proof.
  assert (MemoryBackend.documents (Server.backend test_server_1) !! "doc1"
          = Some {| type := "text"; v := 1; data := [] |}) as Hdoc by reflexivity.
  assert (MemoryBackend.history (Server.backend test_server_1) !! "doc1"
          = Some [[Insert (str "Hello")]]) as Hlog by reflexivity.
  assert (Server.types test_server_1 !! "text" = Some TextType.OT) as Hty by reflexivity.
  split_and!; [done|done|done|].
  assert (0 ≤ 0 ≤ 1)%Z as Hrev by done.
  assert (0 < 1)%Z as Hlt by done.
  exact (proj1 (submitOperation_catch_up test_server_1 "doc1" [Insert (str "World")] 0
                  _ TextType.OT _ Hdoc Hlog eq_refl Hty Hrev) Hlt).
Defined.

(** C9 fails as stated: after the text type, a different type of the same
    name is registered without an error and takes its place. *)
Lemma registerType_counterexample :
  other_text ≠ TextType.OT ∧
  Interfaces.name other_text = Interfaces.name TextType.OT ∧
  Server.types test_server !! "text" = Some TextType.OT ∧
  ∃ srv', Server.registerType other_text test_server = (srv', Ok tt) ∧
          Server.types srv' !! "text" = Some other_text.
Proof.
  split_and!; [|reflexivity|reflexivity|].
  - intros H. apply (f_equal Interfaces.create) in H. discriminate.
  - eexists. split; reflexivity.
Qed.

(** * Further properties

    Properties of the same functions beyond the claims above: the canonical
    form that [append] and [normalize] maintain, what [transform] keeps of
    its operation, the empty operation, and the server together with the
    memory adapter and the text type. *)

(** ** The text type *)

(** *** normalize gives the canonical form *)

Lemma same_kind_shrunk_r x a b :
  (same_kind x (Retain a) = same_kind x (Retain b)) ∧
  (same_kind x (Delete a) = same_kind x (Delete b)) ∧
  (∀ t u, same_kind x (Insert t) = same_kind x (Insert u)).
Proof. by destruct x. Qed.

Lemma normalized_cons c (l : TextOperation) :
  normalized (c :: l) = true ↔
  (0 < getLength c)%Z ∧ normalized l = true ∧
  (∀ y, head l = Some y → same_kind c y = false).
Proof.
  unfold normalized. simpl. rewrite !andb_true_iff, Z.ltb_lt.
  destruct l as [|y l]; simpl.
  - intuition congruence.
  - rewrite !andb_true_iff, negb_true_iff, Z.ltb_lt. split.
    + intros [[? [? ?]] [? ?]]. split_and!; [done..|]. by intros ? [= <-].
    + intros [? [[[? ?] ?] Hy]]. split_and!; [done..| |done]. by apply Hy.
Qed.

Lemma normalized_nil : normalized [] = true.
Proof. done. Qed.

(** Appending to a normalized operation keeps it normalized and keeps the
    kind of its first component. *)
Lemma append_normalized (acc : TextOperation) c :
  normalized acc = true → c ≠ Unknown → (0 ≤ getLength c)%Z →
  normalized (append acc c) = true ∧
  (∀ y, head acc = Some y →
        ∃ y', head (append acc c) = Some y' ∧ ∀ x, same_kind x y' = same_kind x y).
Proof.
  intros Hacc Hc Hlen. induction acc as [|x acc IH].
  { split; [|done]. destruct c as [[| |]|[|]|[| |]|]; simpl in *; try done; try lia. }
  apply normalized_cons in Hacc as (Hx & Hacc & Hhd).
  destruct acc as [|y acc].
  - clear IH. split.
    + destruct c as [[|p|p]|[|a t]|[|p|p]|], x; unfold append; simpl in *;
        try done; try lia;
        unfold normalized; simpl; rewrite ?length_app; simpl;
        repeat (apply andb_true_intro; split); try done; apply Z.ltb_lt; lia.
    + intros ? [= <-].
      destruct c as [[|p|p]|[|a t]|[|p|p]|], x; unfold append; simpl in *; try done; eauto;
        eexists; (split; [reflexivity|]); by intros [].
  - rewrite append_cons by done.
    destruct (IH Hacc) as (Hn & Hk). destruct (Hk y eq_refl) as (y' & Hy' & Hsame).
    split.
    + apply normalized_cons. split_and!; [done..|].
      intros z Hz. rewrite Hy' in Hz. simplify_eq. rewrite Hsame. by apply Hhd.
    + intros ? [= <-]. eauto.
Qed.

Lemma normalized_sized (op : TextOperation) : normalized op = true → sized op.
Proof.
  induction op as [|c op IH]; [by constructor|].
  intros (Hc & Hop & _)%normalized_cons. constructor; [|by apply IH].
  split; [by destruct c|lia].
Qed.

Lemma normalized_well_formed (op : TextOperation) : normalized op = true → well_formed op.
Proof.
  induction op as [|c op IH]; [by constructor|].
  intros (Hc & Hop & _)%normalized_cons. constructor; [|by apply IH].
  split; [by destruct c|lia].
Qed.

Lemma foldl_append_normalized (l acc : TextOperation) :
  normalized acc = true → sized l → normalized (foldl append acc l) = true.
Proof.
  intros Hacc Hl. revert acc Hacc. induction Hl as [|c l [Hc Hlen] _ IH]; intros acc Hacc.
  - done.
  - simpl. apply IH. by apply append_normalized.
Qed.

Lemma normalize_normalized_of_sized (op : TextOperation) :
  sized op → normalized (normalize op) = true.
Proof. intros. by apply foldl_append_normalized. Qed.

(** *** normalize leaves a normalized operation alone *)

Lemma normalized_app_l (l1 l2 : TextOperation) :
  normalized (l1 ++ l2) = true → normalized l1 = true.
Proof.
  induction l1 as [|c l1 IH]; [done|]. simpl.
  intros (Hc & Hl & Hhd)%normalized_cons. apply normalized_cons. split_and!; [done|by apply IH|].
  intros y Hy. apply Hhd. destruct l1; simplify_eq/=. done.
Qed.

Lemma append_snoc_normalized (acc : TextOperation) c :
  normalized (acc ++ [c]) = true → append acc c = acc ++ [c].
Proof.
  induction acc as [|x acc IH]; simpl.
  - intros (Hc & _)%normalized_cons.
    destruct c as [[| |]|[|]|[| |]|]; simpl in *; try done; lia.
  - intros (Hx & Hacc & Hhd)%normalized_cons. destruct acc as [|y acc].
    + simpl in *. specialize (Hhd c eq_refl).
      apply normalized_cons in Hacc as (Hc & _).
      destruct c as [[| |]|[|]|[| |]|], x; simpl in *; try done; lia.
    + rewrite append_cons by done. f_equal. by apply IH.
Qed.

Lemma foldl_append_normalized_id (l acc : TextOperation) :
  normalized (acc ++ l) = true → foldl append acc l = acc ++ l.
Proof.
  revert acc. induction l as [|c l IH]; intros acc Hn; simpl.
  - by rewrite app_nil_r.
  - rewrite cons_middle, app_assoc in Hn.
    rewrite append_snoc_normalized by (by eapply normalized_app_l).
    rewrite IH by done. by rewrite <- app_assoc.
Qed.

(** X2 (normalize, fixed points).  For an operation of known components
    without a negative count, [normalize(op)] is [op] exactly when [op] is
    normalized. *)
Theorem normalize_fixed_point (op : TextOperation) :
  sized op → (normalize op = op ↔ normalized op = true).
Proof.
  intros Hop. split.
  - intros <-. by apply normalize_normalized_of_sized.
  - intros Hn. by apply (foldl_append_normalized_id op []).
Qed.

Lemma normalize_fixed_point_witness :
  sized [Retain 1; Insert (str "a"); Delete 2] ∧
  (normalize [Retain 1; Insert (str "a"); Delete 2] = [Retain 1; Insert (str "a"); Delete 2]
   ↔ normalized [Retain 1; Insert (str "a"); Delete 2] = true).
Proof.
  assert (sized [Retain 1; Insert (str "a"); Delete 2]) as Hop
    by (repeat constructor; done).
  split; [done|]. apply (normalize_fixed_point _ Hop).
Defined.

(** X1 (normalize, canonical form).  For an operation of known components
    without a negative count, [normalize] returns a normalized operation (no
    empty component, no two neighbours of one kind), and normalizing it
    again changes nothing. *)
Theorem normalize_canonical (op : TextOperation) :
  sized op →
  normalized (normalize op) = true ∧ normalize (normalize op) = normalize op.
Proof.
  intros Hop. pose proof (normalize_normalized_of_sized op Hop) as Hn.
  split; [done|]. by apply (foldl_append_normalized_id _ []).
Qed.

Lemma normalize_canonical_witness :
  sized [Retain 1; Retain 2; Insert []; Delete 0; Insert (str "a"); Insert (str "b")] ∧
  normalized (normalize [Retain 1; Retain 2; Insert []; Delete 0;
                         Insert (str "a"); Insert (str "b")]) = true ∧
  normalize (normalize [Retain 1; Retain 2; Insert []; Delete 0;
                        Insert (str "a"); Insert (str "b")])
  = normalize [Retain 1; Retain 2; Insert []; Delete 0; Insert (str "a"); Insert (str "b")].
Proof.
  assert (sized [Retain 1; Retain 2; Insert []; Delete 0; Insert (str "a"); Insert (str "b")])
    as Hop by (repeat constructor; done).
  split; [done|]. apply (normalize_canonical _ Hop).
Defined.

(** *** normalize keeps the edit, failures included *)

Lemma sem_cons_ext x (l1 l2 : TextOperation) s :
  (∀ s', sem l1 s' = sem l2 s') → sem (x :: l1) s = sem (x :: l2) s.
Proof. intros Hl. destruct x; simpl; by rewrite ?Hl. Qed.

Lemma sem_retain_retain_eq a b (l : TextOperation) s :
  (0 ≤ a)%Z → (0 ≤ b)%Z →
  sem (Retain (a + b) :: l) s = sem (Retain a :: Retain b :: l) s.
Proof.
  intros Ha Hb. simpl. rewrite length_drop, drop_drop.
  replace (Z.to_nat (a + b)) with (Z.to_nat a + Z.to_nat b) by lia.
  repeat case_bool_decide; try lia; try done.
  - destruct (sem l _); simpl; [|done]. by rewrite app_assoc, take_take_drop.
Qed.

Lemma sem_delete_delete_eq a b (l : TextOperation) s :
  (0 ≤ a)%Z → (0 ≤ b)%Z →
  sem (Delete (a + b) :: l) s = sem (Delete a :: Delete b :: l) s.
Proof.
  intros Ha Hb. simpl. rewrite length_drop, drop_drop.
  replace (Z.to_nat (a + b)) with (Z.to_nat a + Z.to_nat b) by lia.
  repeat case_bool_decide; try lia; done.
Qed.

Lemma sem_insert_insert_eq a b (l : TextOperation) s :
  sem (Insert (a ++ b) :: l) s = sem (Insert a :: Insert b :: l) s.
Proof. simpl. destruct (sem l s); simpl; [|done]. by rewrite app_assoc. Qed.

Lemma sem_append_eq (acc : TextOperation) c l s :
  sized acc → c ≠ Unknown → (0 ≤ getLength c)%Z →
  sem (append acc c ++ l) s = sem (acc ++ c :: l) s.
Proof.
  intros Hacc Hc Hlen. revert s. induction Hacc as [|x acc [Hx Hxlen] Hacc IH]; intros s.
  - destruct c as [[| |]|[|]|[| |]|]; try done; simpl app;
      rewrite ?sem_retain_0, ?sem_delete_0, ?sem_insert_nil; done.
  - destruct acc as [|y acc].
    + destruct c as [[|p|p]|[|a t]|[|p|p]|], x; unfold append; simpl app; simpl lookup;
        simpl in Hlen, Hxlen;
        rewrite ?sem_retain_0, ?sem_delete_0, ?sem_insert_nil; try done; try lia;
        first [ by apply sem_retain_retain_eq
              | by apply sem_delete_delete_eq
              | by apply sem_insert_insert_eq
              | (apply sem_cons_ext; intros s';
                 by rewrite ?sem_retain_0, ?sem_delete_0, ?sem_insert_nil) ].
    + rewrite append_cons by done. apply sem_cons_ext. intros s'. apply IH.
Qed.

Lemma sem_foldl_append_eq (l acc : TextOperation) s :
  normalized acc = true → sized l →
  sem (foldl append acc l) s = sem (acc ++ l) s.
Proof.
  intros Hacc Hl. revert acc Hacc. induction Hl as [|c l [Hc Hlen] _ IH]; intros acc Hacc.
  - simpl. by rewrite app_nil_r.
  - simpl. rewrite IH by (by apply append_normalized).
    apply sem_append_eq; [by apply normalized_sized|done..].
Qed.

Lemma sem_normalize_eq (op : TextOperation) s :
  sized op → sem (normalize op) s = sem op s.
Proof. intros. by apply (sem_foldl_append_eq op []). Qed.

(** X3 (normalize keeps apply).  For an operation of known components
    without a negative count, [apply(s, normalize(op))] and [apply(s, op)]
    are the same, as a string or as a failure. *)
Theorem apply_normalize (s : jsstring) (op : TextOperation) :
  sized op → TextType.apply s (normalize op) = TextType.apply s op.
Proof.
  intros Hop.
  rewrite !apply_sized by (done || by apply normalized_sized, normalize_normalized_of_sized).
  by rewrite sem_normalize_eq.
Qed.

Lemma apply_normalize_witness :
  sized [Retain 1; Retain 2; Insert (str "x"); Insert (str "y")] ∧
  TextType.apply (str "abc") (normalize [Retain 1; Retain 2; Insert (str "x"); Insert (str "y")])
  = TextType.apply (str "abc") [Retain 1; Retain 2; Insert (str "x"); Insert (str "y")].
Proof.
  assert (sized [Retain 1; Retain 2; Insert (str "x"); Insert (str "y")]) as Hop
    by (repeat constructor; done).
  split; [done|]. apply (apply_normalize (str "abc") _ Hop).
Defined.

(** *** What the loops append for sized operations *)

Lemma sized_pop k (l : TextOperation) : sized l → sized (pop k l).
Proof.
  destruct 1 as [|c l [Hc Hlen] Hl]; simpl; [by constructor|].
  destruct (getLength c - k <=? 0)%Z eqn:Hk; [done|]. apply Z.leb_gt in Hk.
  constructor; [|done]. destruct c; simpl in *; (split; [done|lia]).
Qed.

Lemma sized_tail (l : TextOperation) : sized l → sized (tail l).
Proof. destruct 1; simpl; [by constructor|done]. Qed.

Lemma sized_headlen (l : TextOperation) n : sized l → headlen l = Some n → (0 ≤ n)%Z.
Proof.
  intros Hl. destruct Hl as [|c l [Hc Hlen] Hl]; unfold headlen; simpl; [done|].
  intros [= <-]. exact Hlen.
Qed.

Lemma xmin_nonneg (ra rb : TextOperation) k :
  sized ra → sized rb → TextType.xmin (headlen ra) (headlen rb) = Some k → (0 ≤ k)%Z.
Proof.
  intros Ha Hb [H|H]%xmin_Some.
  - exact (sized_headlen ra k Ha H).
  - exact (sized_headlen rb k Hb H).
Qed.

Lemma sized_singleton c : c ≠ Unknown → (0 ≤ getLength c)%Z → sized [c].
Proof. intros. by repeat constructor. Qed.

Lemma transform_step_sized side ra rb c ra' rb' :
  sized ra → sized rb → transform_step side ra rb = Some (c, ra', rb') →
  (c ≠ Unknown ∧ (0 ≤ getLength c)%Z) ∧ sized ra' ∧ sized rb'.
Proof.
  intros Ha Hb. unfold transform_step.
  assert (∀ d, (0 ≤ default d (headlen rb))%Z ∨ headlen rb = None) as Hd.
  { intros d. destruct (headlen rb) eqn:E; [left|by right]. simpl. by eapply sized_headlen. }
  destruct (TextType.isInsert' (head ra)) eqn:EA.
  { destruct (TextType.isInsert' (head rb)) eqn:EB; [destruct side|];
      intros [= <- <- <-]; split_and!; try done; auto using sized_tail; simpl;
      try lia.
    destruct rb as [|[] rb]; try done. simpl. lia. }
  destruct (TextType.isInsert' (head rb)) eqn:EB.
  { intros [= <- <- <-]. split_and!; try done; auto using sized_tail.
    destruct rb as [|[] rb]; try done. simpl. lia. }
  destruct (TextType.xmin _ _) as [k|] eqn:Hk; [|done].
  intros [= <- <- <-]. pose proof (xmin_nonneg _ _ _ Ha Hb Hk).
  split_and!; auto using sized_pop.
  - unfold transform_emit. by repeat case_match.
  - unfold transform_emit. repeat case_match; simpl; lia.
Qed.

Lemma compose_step_sized ra rb c ra' rb' :
  sized ra → sized rb → compose_step ra rb = Some (c, ra', rb') →
  (c ≠ Unknown ∧ (0 ≤ getLength c)%Z) ∧ sized ra' ∧ sized rb'.
Proof.
  intros Ha Hb. unfold compose_step.
  destruct (TextType.isDelete' (head ra)) eqn:EA.
  { intros [= <- <- <-]. split_and!; try done; auto using sized_tail.
    destruct ra as [|[] ra]; try done. simpl.
    inversion Ha as [|? ? [_ ?]]; subst. done. }
  destruct (TextType.isInsert' (head rb)) eqn:EB.
  { intros [= <- <- <-]. split_and!; try done; auto using sized_tail. simpl. lia. }
  destruct (TextType.xmin _ _) as [k|] eqn:Hk; [|done].
  intros [= <- <- <-]. pose proof (xmin_nonneg _ _ _ Ha Hb Hk).
  split_and!; auto using sized_pop.
  - unfold compose_emit. by repeat case_match.
  - unfold compose_emit. repeat case_match; simpl; lia.
Qed.

Section emitted_sized.
Variable step : TextOperation → TextOperation →
                option (OpComponent * TextOperation * TextOperation).
Hypothesis step_sized : ∀ ra rb c ra' rb',
  sized ra → sized rb → step ra rb = Some (c, ra', rb') →
  (c ≠ Unknown ∧ (0 ≤ getLength c)%Z) ∧ sized ra' ∧ sized rb'.

Lemma emitted_sized fuel ra rb : sized ra → sized rb → sized (emitted step fuel ra rb).
Proof using step_sized.
  revert ra rb. induction fuel as [|fuel IH]; intros ra rb Ha Hb; simpl; [by constructor|].
  destruct (step ra rb) as [[[c ra'] rb']|] eqn:Hs; [|by constructor].
  destruct (step_sized _ _ _ _ _ Ha Hb Hs) as (Hc & Ha' & Hb').
  constructor; [done|by apply IH].
Qed.
End emitted_sized.

(** X4 (results are normalized).  For operations of known components
    without a negative count, also ones that are not normalized,
    [transform] and [compose] succeed and return a normalized operation. *)
Theorem transform_compose_normalized (a b : TextOperation) :
  sized a → sized b →
  (∀ side, ∃ r, TextType.transform a b side = Ok r ∧ normalized r = true) ∧
  (∃ r, TextType.compose a b = Ok r ∧ normalized r = true).
Proof.
  intros Ha Hb. split.
  - intros side. eexists. split.
    + apply transform_sized; by apply sized_Unknown.
    + apply normalize_normalized_of_sized, normalized_sized, normalize_normalized_of_sized.
      apply emitted_sized; [apply transform_step_sized|done..].
  - eexists. split.
    + by apply compose_sized.
    + apply normalize_normalized_of_sized, normalized_sized, normalize_normalized_of_sized.
      apply emitted_sized; [apply compose_step_sized|done..].
Qed.

Lemma transform_compose_normalized_witness :
  sized [Retain 1; Retain 1; Insert (str "A")] ∧
  sized [Delete 1; Delete 1] ∧
  (∀ side, ∃ r, TextType.transform [Retain 1; Retain 1; Insert (str "A")]
                                   [Delete 1; Delete 1] side = Ok r ∧
                normalized r = true) ∧
  (∃ r, TextType.compose [Retain 1; Retain 1; Insert (str "A")] [Delete 1; Delete 1] = Ok r ∧
        normalized r = true).
Proof.
  assert (sized [Retain 1; Retain 1; Insert (str "A")]) as Ha by (repeat constructor; done).
  assert (sized [Delete 1; Delete 1]) as Hb by (repeat constructor; done).
  split_and!; [done|done|..]; apply (transform_compose_normalized _ _ Ha Hb).
Defined.

(** *** The empty operation *)

Lemma emitted_transform_nil_r side fuel (ra : TextOperation) :
  Unknown ∉ ra → length ra ≤ fuel → emitted (transform_step side) fuel ra [] = ra.
Proof.
  revert ra. induction fuel as [|fuel IH]; intros ra Hu Hfuel.
  { destruct ra; simpl in *; [done|lia]. }
  destruct ra as [|c ra]; [done|]. apply not_elem_of_cons in Hu as [Hc Hu].
  simpl in Hfuel. cbn [emitted].
  destruct c as [n|t|n|]; [| | |done]; unfold transform_step; simpl;
    rewrite ?Z.sub_diag; simpl; f_equal; apply IH; (done || lia).
Qed.

Lemma emitted_compose_nil_r fuel (ra : TextOperation) :
  Unknown ∉ ra → length ra ≤ fuel → emitted compose_step fuel ra [] = ra.
Proof.
  revert ra. induction fuel as [|fuel IH]; intros ra Hu Hfuel.
  { destruct ra; simpl in *; [done|lia]. }
  destruct ra as [|c ra]; [done|]. apply not_elem_of_cons in Hu as [Hc Hu].
  simpl in Hfuel. cbn [emitted].
  destruct c as [n|t|n|]; [| | |done]; unfold compose_step at 1; simpl;
    rewrite ?Z.sub_diag; simpl.
  - f_equal. apply IH; (done || lia).
  - unfold compose_emit. simpl. rewrite js_substr_take by lia.
    rewrite Nat2Z.id, take_ge by done. f_equal. apply IH; (done || lia).
  - f_equal. apply IH; (done || lia).
Qed.

Lemma emitted_compose_nil_l fuel (rb : TextOperation) :
  Unknown ∉ rb → length rb ≤ fuel → emitted compose_step fuel [] rb = rb.
Proof.
  revert rb. induction fuel as [|fuel IH]; intros rb Hu Hfuel.
  { destruct rb; simpl in *; [done|lia]. }
  destruct rb as [|c rb]; [done|]. apply not_elem_of_cons in Hu as [Hc Hu].
  simpl in Hfuel. cbn [emitted].
  destruct c as [n|t|n|]; [| | |done]; unfold compose_step at 1; simpl;
    rewrite ?Z.sub_diag; simpl; f_equal; apply IH; (done || lia).
Qed.

(** X5 (the empty operation).  [apply(s, [])] is [s]; for an operation
    [op] of known components without a negative count,
    [transform(op, [], side)], [compose(op, [])] and [compose([], op)] are
    all [normalize(op)], which is [op] itself when [op] is normalized. *)
Theorem empty_operation_identity (s : jsstring) (op : TextOperation) :
  sized op →
  TextType.apply s [] = Ok s ∧
  (∀ side, TextType.transform op [] side = Ok (normalize op)) ∧
  TextType.compose op [] = Ok (normalize op) ∧
  TextType.compose [] op = Ok (normalize op).
Proof.
  intros Hop. pose proof (sized_Unknown _ Hop) as Hu.
  assert (normalize (normalize op) = normalize op) as Hidem.
  { apply (foldl_append_normalized_id _ []). by apply normalize_normalized_of_sized. }
  split_and!.
  - unfold TextType.apply. simpl.
    destruct (0 <? Z.of_nat (length s))%Z eqn:E.
    + by rewrite js_slice_tail by lia.
    + apply Z.ltb_ge in E. destruct s; [done|simpl in E; lia].
  - intros side. rewrite transform_sized by (done || apply not_elem_of_nil).
    rewrite emitted_transform_nil_r by (done || simpl; lia). by rewrite Hidem.
  - rewrite compose_sized by (done || constructor).
    rewrite emitted_compose_nil_r by (done || simpl; lia). by rewrite Hidem.
  - rewrite compose_sized by (done || constructor).
    rewrite emitted_compose_nil_l by (done || simpl; lia). by rewrite Hidem.
Qed.

Lemma empty_operation_identity_witness :
  sized [Retain 1; Insert (str "x"); Delete 1] ∧
  TextType.apply (str "abc") [] = Ok (str "abc") ∧
  (∀ side, TextType.transform [Retain 1; Insert (str "x"); Delete 1] [] side
           = Ok (normalize [Retain 1; Insert (str "x"); Delete 1])) ∧
  TextType.compose [Retain 1; Insert (str "x"); Delete 1] []
    = Ok (normalize [Retain 1; Insert (str "x"); Delete 1]) ∧
  TextType.compose [] [Retain 1; Insert (str "x"); Delete 1]
    = Ok (normalize [Retain 1; Insert (str "x"); Delete 1]).
Proof.
  assert (sized [Retain 1; Insert (str "x"); Delete 1]) as Hop
    by (repeat constructor; done).
  split; [done|]. apply (empty_operation_identity (str "abc") _ Hop).
Defined.

(** *** The length of the edited string *)

Lemma sem_length (op : TextOperation) s r :
  sem op s = Some r →
  Z.of_nat (length r)
  = (Z.of_nat (length s) + Z.of_nat (length (inserted_text op)) - deleted op)%Z.
Proof.
  revert s r. induction op as [|c op IH]; intros s r; simpl.
  { intros [= <-]. lia. }
  destruct c as [n|t|n|]; [| | |done].
  - case_bool_decide; [|done]. destruct (sem op _) as [r'|] eqn:Hr; [|done].
    intros [= <-]. apply IH in Hr. rewrite length_app, length_take. rewrite length_drop in Hr.
    lia.
  - destruct (sem op _) as [r'|] eqn:Hr; [|done].
    intros [= <-]. apply IH in Hr. rewrite !length_app. lia.
  - case_bool_decide; [|done]. intros Hr. apply IH in Hr. rewrite length_drop in Hr. lia.
Qed.

(** X6 (length of the edited string).  When [apply(s, op)] returns [r], for
    an operation of known components without a negative count, the length
    of [r] is the length of [s] plus the length of the inserted text minus
    the deleted count. *)
Theorem apply_length (s : jsstring) (op : TextOperation) (r : jsstring) :
  sized op → TextType.apply s op = Ok r →
  Z.of_nat (length r)
  = (Z.of_nat (length s) + Z.of_nat (length (inserted_text op)) - deleted op)%Z.
Proof. intros Hop Hr%apply_Ok_sem; [|done]. by apply sem_length. Qed.

Lemma apply_length_witness :
  sized [Retain 2; Insert (str "y"); Delete 2; Retain 1; Delete 6] ∧
  TextType.apply (str "Hello World") [Retain 2; Insert (str "y"); Delete 2; Retain 1; Delete 6]
    = Ok (str "Heyo") ∧
  Z.of_nat (length (str "Heyo"))
  = (Z.of_nat (length (str "Hello World"))
     + Z.of_nat (length (inserted_text
                           [Retain 2; Insert (str "y"); Delete 2; Retain 1; Delete 6]))
     - deleted [Retain 2; Insert (str "y"); Delete 2; Retain 1; Delete 6])%Z.
Proof.
  assert (sized [Retain 2; Insert (str "y"); Delete 2; Retain 1; Delete 6]) as Hop
    by (repeat constructor; done).
  split_and!; [done|reflexivity|].
  apply (apply_length (str "Hello World") _ (str "Heyo") Hop). reflexivity.
Defined.

(** *** transform keeps the inserted text *)

Lemma inserted_text_app (l1 l2 : TextOperation) :
  inserted_text (l1 ++ l2) = inserted_text l1 ++ inserted_text l2.
Proof. induction l1 as [|[] l1 IH]; simpl; rewrite ?IH, ?app_assoc; done. Qed.

Lemma inserted_text_append (acc : TextOperation) c :
  inserted_text (append acc c) = inserted_text (acc ++ [c]).
Proof.
  induction acc as [|x acc IH].
  - by destruct c as [[| |]|[|]|[| |]|].
  - destruct acc as [|y acc].
    + destruct c as [[| |]|[|]|[| |]|], x; unfold append; simpl;
        rewrite ?app_nil_r; done.
    + rewrite append_cons by done. destruct x; simpl; by rewrite IH.
Qed.

Lemma inserted_text_foldl_append (l acc : TextOperation) :
  inserted_text (foldl append acc l) = inserted_text (acc ++ l).
Proof.
  revert acc. induction l as [|c l IH]; intros acc; simpl.
  - by rewrite app_nil_r.
  - rewrite IH, !inserted_text_app, inserted_text_append, inserted_text_app. simpl.
    destruct c; simpl; by rewrite <- ?app_assoc.
Qed.

Lemma inserted_text_normalize (l : TextOperation) :
  inserted_text (normalize l) = inserted_text l.
Proof. apply (inserted_text_foldl_append l []). Qed.

Lemma inserted_text_pop k (l : TextOperation) :
  TextType.isInsert' (head l) = false → inserted_text (pop k l) = inserted_text l.
Proof. destruct l as [|[] l]; simpl; try done; by case_match. Qed.

Lemma inserted_text_emitted side fuel : ∀ ra rb : TextOperation,
  length ra + length rb ≤ fuel →
  inserted_text (emitted (transform_step side) fuel ra rb) = inserted_text ra.
Proof.
  induction fuel as [|fuel IH]; intros ra rb Hfuel.
  { destruct ra; simpl in *; [done|lia]. }
  cbn [emitted].
  destruct (transform_step side ra rb) as [[[c ra'] rb']|] eqn:Hs.
  - pose proof (transform_step_length _ _ _ _ _ _ Hs) as Hlt.
    simpl. unfold transform_step in Hs.
    destruct (TextType.isInsert' (head ra)) eqn:EA.
    { destruct ra as [|[| t | |] ra]; try done. simpl in Hs.
      destruct (TextType.isInsert' (head rb)) eqn:EB; [destruct side|]; simplify_eq;
        simpl; rewrite IH by lia; done. }
    destruct (TextType.isInsert' (head rb)) eqn:EB.
    { simplify_eq. simpl. rewrite IH by lia. done. }
    destruct (TextType.xmin _ _) as [k|] eqn:Hk; [|done]. simplify_eq.
    rewrite IH by lia. rewrite inserted_text_pop by done.
    unfold transform_emit. by repeat case_match.
  - unfold transform_step in Hs.
    destruct ra as [|[] ra]; try done; simpl in Hs; repeat case_match; done.
Qed.

(** X7 (transform keeps the inserted text).  Whenever [transform(a, b, side)]
    returns [r], the texts inserted by [r], taken in order, are the texts
    inserted by [a]: no insert of [a] is lost, cut or reordered, and nothing
    of [b] is inserted. *)
Theorem transform_inserted_text (a b : TextOperation) side (r : TextOperation) :
  TextType.transform a b side = Ok r → inserted_text r = inserted_text a.
Proof.
  intros Hr.
  destruct (checkOp_cases a) as [[Ha Hua]|[Ha Hua]];
    [|unfold TextType.transform in Hr; by rewrite Ha in Hr].
  destruct (checkOp_cases b) as [[Hb Hub]|[Hb Hub]];
    [|unfold TextType.transform in Hr; by rewrite Ha, Hb in Hr].
  rewrite transform_sized in Hr by done. simplify_eq.
  rewrite !inserted_text_normalize. by apply inserted_text_emitted.
Qed.

Lemma transform_inserted_text_witness :
  TextType.transform [Retain 1; Insert (str "A"); Retain 1; Insert (str "B")] [Delete 2] Left
    = Ok [Insert (str "AB")] ∧
  inserted_text [Insert (str "AB")]
  = inserted_text [Retain 1; Insert (str "A"); Retain 1; Insert (str "B")].
Proof.
  split; [reflexivity|].
  apply (transform_inserted_text _ [Delete 2] Left). reflexivity.
Defined.

(** *** The implicit final retain *)

Lemma sem_pad (op : TextOperation) s :
  sized op → (traversed op ≤ Z.of_nat (length s))%Z →
  sem (op ++ [Retain (Z.of_nat (length s) - traversed op)]) s = sem op s.
Proof.
  intros Hop. revert s. induction Hop as [|c op [Hc Hlen] Hop IH]; intros s Hs; simpl in *.
  { rewrite Z.sub_0_r, Nat2Z.id. rewrite bool_decide_eq_true_2 by lia.
    rewrite drop_all, take_ge by lia. simpl. by rewrite app_nil_r. }
  pose proof (traversed_nonneg _ Hop).
  destruct c as [n|t|n|]; [| | |done]; simpl in *.
  - case_bool_decide; [|done].
    rewrite <- (IH (drop (Z.to_nat n) s)) by (rewrite length_drop; lia).
    rewrite length_drop.
    by replace (Z.of_nat (length s - Z.to_nat n) - traversed op)%Z
      with (Z.of_nat (length s) - (n + traversed op))%Z by lia.
  - by rewrite IH.
  - case_bool_decide; [|done].
    rewrite <- (IH (drop (Z.to_nat n) s)) by (rewrite length_drop; lia).
    rewrite length_drop.
    by replace (Z.of_nat (length s - Z.to_nat n) - traversed op)%Z
      with (Z.of_nat (length s) - (n + traversed op))%Z by lia.
Qed.

(** X9 (the implicit final retain).  For an operation of known components
    without a negative count that stays within the snapshot, appending a
    [Retain] of the part of the snapshot that it does not traverse leaves
    the outcome of [apply] as it is. *)
Theorem apply_implicit_retain (s : jsstring) (op : TextOperation) :
  sized op → (traversed op ≤ Z.of_nat (length s))%Z →
  TextType.apply s (op ++ [Retain (Z.of_nat (length s) - traversed op)])
  = TextType.apply s op.
Proof.
  intros Hop Hs. rewrite !apply_sized; [by rewrite sem_pad|done|].
  apply Forall_app. split; [done|]. repeat constructor; simpl; [done|lia].
Qed.

Lemma apply_implicit_retain_witness :
  sized [Retain 1; Delete 1] ∧
  (traversed [Retain 1; Delete 1] ≤ Z.of_nat (length (str "Hello")))%Z ∧
  TextType.apply (str "Hello")
    ([Retain 1; Delete 1]
       ++ [Retain (Z.of_nat (length (str "Hello")) - traversed [Retain 1; Delete 1])])
  = TextType.apply (str "Hello") [Retain 1; Delete 1].
Proof.
  assert (sized [Retain 1; Delete 1]) as Hop by (repeat constructor; done).
  assert (traversed [Retain 1; Delete 1] ≤ Z.of_nat (length (str "Hello")))%Z as Hs by done.
  split_and!; [done|done|]. apply (apply_implicit_retain (str "Hello") _ Hop Hs).
Defined.

(** *** transform deletes no more than its operation *)











(** *** Catching up keeps an operation applicable *)

Lemma replay_app {Snapshot Op} (type : OTType Snapshot Op) s (l1 l2 : list Op) :
  replay type s (l1 ++ l2) = replay type s l1 ≫= λ s', replay type s' l2.
Proof.
  revert s. induction l1 as [|op l1 IH]; intros s; simpl; [done|].
  destruct (Interfaces.apply type s op); simpl; [apply IH|done].
Qed.

Lemma transform_right_applies (s : jsstring) (a b : TextOperation) (sa sb : jsstring) :
  sized a → sized b →
  TextType.apply s a = Ok sa → TextType.apply s b = Ok sb →
  ∃ b', TextType.transform b a Right = Ok b' ∧ normalized b' = true ∧
        ∃ r, TextType.apply sa b' = Ok r.
Proof.
  intros Ha Hb Hsa Hsb.
  apply apply_Ok_sem in Hsa; [|done]. apply apply_Ok_sem in Hsb; [|done].
  destruct (tp1_emitted (length a + length b) a b s sa sb Hsa Hsb) as (r & H1 & _);
    [done|].
  eexists. split_and!.
  - apply transform_sized; by apply sized_Unknown.
  - apply normalize_normalized_of_sized, normalized_sized, normalize_normalized_of_sized.
    apply emitted_sized; [apply transform_step_sized|done..].
  - exists r. apply apply_sem. do 2 apply sem_normalize.
    by rewrite (Nat.add_comm (length b)).
Qed.

(** The catch-up loop on text operations, by induction on the log. *)
Lemma catch_up_replay (history : list TextOperation) :
  ∀ (s : jsstring) (op : TextOperation) (s_now s_op : jsstring),
  Forall sized history → sized op →
  replay TextType.OT s history = Ok s_now →
  TextType.apply s op = Ok s_op →
  ∃ op', Server.catch_up TextType.OT op history = Ok op' ∧ sized op' ∧
         ∃ r, TextType.apply s_now op' = Ok r.
Proof.
  induction history as [|past history IH]; intros s op s_now s_op Hhist Hop Hnow Hsop.
  - simpl in *. simplify_eq. eauto.
  - apply Forall_cons in Hhist as [Hpast Hhist]. simpl in Hnow |- *.
    destruct (TextType.apply s past) as [s1|] eqn:Hs1; [|done]. simpl in Hnow.
    destruct (transform_right_applies s past op s1 s_op Hpast Hop Hs1 Hsop)
      as (op1 & -> & Hn & r1 & Hr1).
    simpl. eapply IH; eauto using normalized_sized.
Qed.

(** X10 (catching up keeps an operation applicable).  Let the operations of
    [history] and [op] have known components without a negative count.  If
    [history] replays from the text [s] to the text [s_now], and [op]
    applies to [s], then the catch-up loop of the server returns an
    operation, again of known components without a negative count, that
    applies to [s_now]. *)
Theorem catch_up_applies (history : list TextOperation) :
  ∀ (s : jsstring) (op : TextOperation) (s_now s_op : jsstring),
  Forall sized history → sized op →
  replay TextType.OT s history = Ok s_now →
  TextType.apply s op = Ok s_op →
  ∃ op', Server.catch_up TextType.OT op history = Ok op' ∧ sized op' ∧
         ∃ r, TextType.apply s_now op' = Ok r.
Proof. apply catch_up_replay. Qed.

Lemma catch_up_applies_witness :
  Forall sized [[Insert (str "Hello")]; [Retain 5; Insert (str "!")]] ∧
  sized [Insert (str "World")] ∧
  replay TextType.OT (str "") [[Insert (str "Hello")]; [Retain 5; Insert (str "!")]]
    = Ok (str "Hello!") ∧
  TextType.apply (str "") [Insert (str "World")] = Ok (str "World") ∧
  ∃ op', Server.catch_up TextType.OT [Insert (str "World")]
           [[Insert (str "Hello")]; [Retain 5; Insert (str "!")]] = Ok op' ∧
         sized op' ∧ ∃ r, TextType.apply (str "Hello!") op' = Ok r.
Proof.
  assert (Forall sized [[Insert (str "Hello")]; [Retain 5; Insert (str "!")]]) as Hh
    by (repeat constructor; done).
  assert (sized [Insert (str "World")]) as Hop by (repeat constructor; done).
  split_and!; [done|done|reflexivity|reflexivity|].
  apply (catch_up_applies _ (str "") _ (str "Hello!") (str "World") Hh Hop); reflexivity.
Defined.

(** ** The server and the memory adapter *)

Section server_more.
Context {Snapshot Op : Type}.
Implicit Types (b : MemoryBackend.t Snapshot Op).
Implicit Types (srv : Server.t (MemoryBackend.t Snapshot Op) Snapshot Op).
Implicit Types (ty : OTType Snapshot Op).

(** *** Reading the log *)

Lemma js_slice_lookup {A} (l : list A) start end_ (i : nat) :
  (0 ≤ start ≤ end_)%Z →
  js_slice l start (Some end_) !! i =
  if bool_decide (Z.of_nat i < end_ - start)%Z then l !! (Z.to_nat start + i) else None.
Proof.
  intros Hse. unfold js_slice, js_rel_index.
  replace (start <? 0)%Z with false by lia. replace (end_ <? 0)%Z with false by lia.
  case_bool_decide as Hi.
  - destruct (decide (Z.to_nat start + i < length l)) as [Hlt|Hge].
    + rewrite lookup_take_lt by lia. rewrite lookup_drop. f_equal. lia.
    + rewrite (proj2 (lookup_ge_None l _)) by lia.
      apply lookup_ge_None. rewrite length_take, length_drop. lia.
  - apply lookup_ge_None. rewrite length_take, length_drop. lia.
Qed.

(** X11 (getHistory, a range of the log).  For a document with a log and
    [0 <= start <= end], [getHistory(docId, start, end)] changes nothing and
    returns the entries of the log at the indices [start .. end - 1] that
    exist, in order: entry [i] of the result is entry [start + i] of the
    log. *)
Theorem getHistory_range b docId start end_ log :
  MemoryBackend.history b !! docId = Some log →
  (0 ≤ start ≤ end_)%Z →
  ∃ ops, MemoryBackend.getHistory docId start (Some end_) b = (b, Ok ops) ∧
         ∀ i : nat, ops !! i =
           if bool_decide (Z.of_nat i < end_ - start)%Z
           then log !! (Z.to_nat start + i) else None.
Proof.
  intros Hlog Hse. unfold MemoryBackend.getHistory. rewrite Hlog. simpl.
  eexists. split; [done|]. intros i. by apply js_slice_lookup.
Qed.

(** X12 (saveOperation, then read).  On a document whose log has as many
    entries as its revision [v], saving [op] at [v + 1] succeeds; afterwards
    [getRecord] returns the record at revision [v + 1] with its type and
    data unchanged, [getHistory(docId, v)] returns exactly [[op]], and
    [getHistory(docId, 0)] the old log followed by [op]. *)
Theorem saveOperation_getHistory b docId (op : Op) doc ops :
  MemoryBackend.documents b !! docId = Some doc →
  MemoryBackend.history b !! docId = Some ops →
  v doc = Z.of_nat (length ops) →
  ∃ b', MemoryBackend.saveOperation docId op (v doc + 1) b = (b', Ok tt) ∧
        MemoryBackend.getRecord docId b'
          = (b', Ok {| type := type doc; v := (v doc + 1)%Z; data := data doc |}) ∧
        MemoryBackend.getHistory docId (v doc) None b' = (b', Ok [op]) ∧
        MemoryBackend.getHistory docId 0 None b' = (b', Ok (ops ++ [op])).
Proof.
  intros Hdoc Hops Hv. unfold MemoryBackend.saveOperation. rewrite Hdoc, Hops.
  rewrite bool_decide_eq_false_2 by (intros Hne; by apply Hne).
  eexists. split; [done|].
  unfold MemoryBackend.getRecord, MemoryBackend.getHistory. simpl.
  rewrite !lookup_insert_eq. simpl. split_and!; [done|..]; do 2 f_equal.
  - rewrite js_slice_tail by (rewrite length_app; simpl; lia).
    rewrite Hv, Nat2Z.id. by rewrite drop_app_length.
  - by rewrite js_slice_tail by lia.
Qed.

(** X13 (an unknown document).  For a document id without a record,
    [getRecord], [saveOperation] and [submitOperation] fail with
    "Document ... not found" and change nothing. *)
Theorem unknown_document srv docId (op : Op) n revision :
  MemoryBackend.documents (Server.backend srv) !! docId = None →
  MemoryBackend.getRecord docId (Server.backend srv)
    = (Server.backend srv, Err DocumentNotFound) ∧
  MemoryBackend.saveOperation docId op n (Server.backend srv)
    = (Server.backend srv, Err DocumentNotFound) ∧
  Server.submitOperation docId op revision srv = (srv, Err DocumentNotFound).
Proof.
  intros Hdoc. destruct srv as [b types]. simpl in *.
  unfold Server.submitOperation, Server.on_backend, mbind, async_bind. simpl.
  unfold MemoryBackend.getRecord, MemoryBackend.saveOperation. by rewrite Hdoc.
Qed.

(** *** submitOperation, in one equation *)

Lemma js_slice_drop {A} (l : list A) start :
  (0 ≤ start)%Z → js_slice l start None = drop (Z.to_nat start) l.
Proof.
  intros Hs. unfold js_slice, js_rel_index.
  replace (start <? 0)%Z with false by lia.
  destruct (decide (start ≤ Z.of_nat (length l))%Z).
  - rewrite Z.min_l by lia. apply take_ge. rewrite length_drop. lia.
  - rewrite !drop_ge by lia. by rewrite take_nil.
Qed.

Lemma submitOperation_eq srv docId (op : Op) revision record ty log :
  MemoryBackend.documents (Server.backend srv) !! docId = Some record →
  MemoryBackend.history (Server.backend srv) !! docId = Some log →
  Server.types srv !! type record = Some ty →
  (0 ≤ revision ≤ v record)%Z →
  v record = Z.of_nat (length log) →
  Server.submitOperation docId op revision srv =
  match Server.catch_up ty op (drop (Z.to_nat revision) log) with
  | Ok op' =>
    ({| Server.backend :=
          {| MemoryBackend.documents :=
               <[docId := {| type := type record; v := (v record + 1)%Z; data := data record |}]>
                 (MemoryBackend.documents (Server.backend srv));
             MemoryBackend.history :=
               <[docId := log ++ [op']]> (MemoryBackend.history (Server.backend srv)) |};
        Server.types := Server.types srv |},
     Ok {| Server.op := op'; Server.revision := (v record + 1)%Z |})
  | Err e => (srv, Err e)
  end.
Proof.
  intros Hdoc Hlog Hty Hrev Hv. destruct srv as [b types]. simpl in *.
  unfold Server.submitOperation, Server.on_backend, mbind, async_bind. simpl.
  unfold MemoryBackend.getRecord. rewrite Hdoc. unfold gets. simpl. rewrite Hty.
  replace (revision >? v record)%Z with false by lia.
  destruct (revision <? v record)%Z eqn:Hlt.
  - simpl. unfold MemoryBackend.getHistory. rewrite Hlog. simpl.
    rewrite js_slice_drop by lia. unfold settle.
    destruct (Server.catch_up _ _ _) as [op'|e]; [|done].
    simpl. unfold MemoryBackend.saveOperation. rewrite Hdoc, Hlog.
    by rewrite bool_decide_eq_false_2 by (intros Hne; by apply Hne).
  - apply Z.ltb_ge in Hlt. rewrite drop_ge by lia.
    simpl. unfold MemoryBackend.saveOperation. rewrite Hdoc, Hlog.
    by rewrite bool_decide_eq_false_2 by (intros Hne; by apply Hne).
Qed.

(** X14 (submitOperation keeps the adapter consistent).  Whatever the
    outcome of [submitOperation], if every record of the backend had a log
    with as many entries as its revision before, so it has after; and the
    registered types are unchanged. *)
Theorem submitOperation_consistent srv docId (op : Op) revision :
  consistent (Server.backend srv) →
  consistent (Server.backend (Server.submitOperation docId op revision srv).1) ∧
  Server.types (Server.submitOperation docId op revision srv).1 = Server.types srv.
Proof.
  intros Hb. destruct srv as [b types]. simpl in *.
  unfold Server.submitOperation, Server.on_backend, mbind, async_bind. simpl.
  unfold MemoryBackend.getRecord.
  destruct (MemoryBackend.documents b !! docId) as [record|] eqn:Hdoc; [|done].
  unfold gets. simpl. destruct (types !! type record) as [ty|]; [|done].
  destruct (revision >? v record)%Z; [done|].
  destruct (revision <? v record)%Z; simpl.
  - unfold settle. destruct (Server.catch_up _ _ _) as [op'|e]; [|done]. simpl.
    pose proof (consistent_saveOperation b docId op' (v record + 1) Hb) as Hc.
    destruct (MemoryBackend.saveOperation docId op' (v record + 1) b) as [b' [[]|e]];
      simpl in *; done.
  - pose proof (consistent_saveOperation b docId op (v record + 1) Hb) as Hc.
    destruct (MemoryBackend.saveOperation docId op (v record + 1) b) as [b' [[]|e]];
      simpl in *; done.
Qed.
End server_more.

(** *** The server on text documents *)

Section text_server.
Implicit Types (srv : Server.t (MemoryBackend.t jsstring TextOperation) jsstring TextOperation).

(** X16 (the log of a text document stays replayable).  On a text document
    whose log replays from the initial snapshot, an operation that applies
    to the document as it was at [revision] is accepted by
    [submitOperation]: the committed operation is appended to the log,
    applies to the current text, and the new log replays to that result. *)
Theorem submitOperation_replayable srv docId (op : TextOperation) revision record log
    (s_rev s_now s_op : jsstring) :
  MemoryBackend.documents (Server.backend srv) !! docId = Some record →
  MemoryBackend.history (Server.backend srv) !! docId = Some log →
  v record = Z.of_nat (length log) →
  Server.types srv !! type record = Some TextType.OT →
  (0 ≤ revision ≤ v record)%Z →
  Forall sized log → sized op →
  replay TextType.OT (data record) (take (Z.to_nat revision) log) = Ok s_rev →
  replay TextType.OT (data record) log = Ok s_now →
  TextType.apply s_rev op = Ok s_op →
  ∃ op' srv' r,
    Server.submitOperation docId op revision srv
      = (srv', Ok {| Server.op := op'; Server.revision := (v record + 1)%Z |}) ∧
    MemoryBackend.history (Server.backend srv') !! docId = Some (log ++ [op']) ∧
    sized op' ∧
    TextType.apply s_now op' = Ok r ∧
    replay TextType.OT (data record) (log ++ [op']) = Ok r.
Proof.
  intros Hdoc Hlog Hv Hty Hrev Hsized Hop Hsrev Hnow Hsop.
  rewrite <- (take_drop (Z.to_nat revision) log) in Hnow.
  rewrite replay_app, Hsrev in Hnow. simpl in Hnow.
  destruct (catch_up_replay (drop (Z.to_nat revision) log) s_rev op s_now s_op)
    as (op' & Hcu & Hop' & r & Hr); [by apply Forall_drop|done..|].
  rewrite (submitOperation_eq srv docId op revision record TextType.OT log) by done.
  rewrite Hcu. eexists op', _, r. split_and!; [done| |done|done|].
  - simpl. by rewrite lookup_insert_eq.
  - rewrite <- (take_drop (Z.to_nat revision) log) at 1.
    rewrite <- app_assoc, replay_app, Hsrev. simpl.
    rewrite replay_app, Hnow. simpl. by rewrite Hr.
Qed.

(** X17 (two clients at the same revision).  Two text operations [a] and [b]
    made on the same text at the current revision [v] and submitted one
    after the other at [v]: [a] is committed unchanged as revision [v + 1],
    [b] as [transform(b, a, "right")] at revision [v + 2], the log gains
    these two entries, and the first client, applying the committed [b'] on
    top of [a], reaches the same text as the second client applying
    [transform(a, b, "left")] on top of [b]. *)
Theorem concurrent_submissions srv docId (a b : TextOperation) record log
    (s sa sb : jsstring) :
  MemoryBackend.documents (Server.backend srv) !! docId = Some record →
  MemoryBackend.history (Server.backend srv) !! docId = Some log →
  v record = Z.of_nat (length log) →
  Server.types srv !! type record = Some TextType.OT →
  sized a → sized b →
  TextType.apply s a = Ok sa → TextType.apply s b = Ok sb →
  ∃ a' b' r srv1 srv2,
    Server.submitOperation docId a (v record) srv
      = (srv1, Ok {| Server.op := a; Server.revision := (v record + 1)%Z |}) ∧
    Server.submitOperation docId b (v record) srv1
      = (srv2, Ok {| Server.op := b'; Server.revision := (v record + 2)%Z |}) ∧
    MemoryBackend.history (Server.backend srv2) !! docId = Some (log ++ [a; b']) ∧
    TextType.transform b a Right = Ok b' ∧
    TextType.transform a b Left = Ok a' ∧
    TextType.apply sa b' = Ok r ∧
    TextType.apply sb a' = Ok r.
Proof.
  intros Hdoc Hlog Hv Hty Ha Hb Hsa Hsb.
  pose proof Hsa as Hsa'. pose proof Hsb as Hsb'.
  apply apply_Ok_sem in Hsa'; [|done]. apply apply_Ok_sem in Hsb'; [|done].
  pose proof (sized_Unknown _ Ha) as Hua. pose proof (sized_Unknown _ Hb) as Hub.
  destruct (tp1_emitted (length a + length b) a b s sa sb Hsa' Hsb') as (r & H1 & H2);
    [done|].
  pose proof (transform_sized b a Right Hub Hua) as Hb'.
  pose proof (transform_sized a b Left Hua Hub) as Ha'.
  set (record1 := {| type := type record; v := (v record + 1)%Z; data := data record |}).
  set (srv1 := {| Server.backend :=
                    {| MemoryBackend.documents :=
                         <[docId := record1]> (MemoryBackend.documents (Server.backend srv));
                       MemoryBackend.history :=
                         <[docId := log ++ [a]]> (MemoryBackend.history (Server.backend srv)) |};
                  Server.types := Server.types srv |}).
  assert (Server.submitOperation docId a (v record) srv
          = (srv1, Ok {| Server.op := a; Server.revision := (v record + 1)%Z |})) as E1.
  { rewrite (submitOperation_eq srv docId a (v record) record TextType.OT log) by (done || lia).
    by rewrite drop_ge by lia. }
  assert (MemoryBackend.documents (Server.backend srv1) !! docId = Some record1) as Hdoc1.
  { simpl. by rewrite lookup_insert_eq. }
  assert (MemoryBackend.history (Server.backend srv1) !! docId = Some (log ++ [a])) as Hlog1.
  { simpl. by rewrite lookup_insert_eq. }
  assert (v record1 = Z.of_nat (length (log ++ [a]))) as Hv1.
  { rewrite length_app. simpl. lia. }
  assert (0 ≤ v record ≤ v record1)%Z as Hrev1 by (simpl; lia).
  pose proof (submitOperation_eq srv1 docId b (v record) record1 TextType.OT (log ++ [a])
                Hdoc1 Hlog1 Hty Hrev1 Hv1) as E2.
  replace (Z.to_nat (v record)) with (length log) in E2 by lia.
  rewrite drop_app_length in E2. simpl in E2.
  change (Interfaces.transform TextType.OT b a Right)
    with (TextType.transform b a Right) in E2.
  rewrite Hb' in E2. simpl in E2.
  replace (v record + 1 + 1)%Z with (v record + 2)%Z in E2 by lia.
  eexists _, _, r, srv1, _. split_and!.
  - exact E1.
  - exact E2.
  - simpl. rewrite lookup_insert_eq. by rewrite <- app_assoc.
  - exact Hb'.
  - exact Ha'.
  - apply apply_sem. do 2 apply sem_normalize.
    rewrite (Nat.add_comm (length b)). exact H1.
  - apply apply_sem. do 2 apply sem_normalize. exact H2.
Qed.
End text_server.

(** *** The properties of the server, at the documents of the tests *)

Lemma reachable_consistent_witness :
  reachable (Server.backend test_server_1) ∧ consistent (Server.backend test_server_1).
Proof.
  assert (reachable (Server.backend test_server_1)) as Hr.
  { exact (reachable_saveOperation _ "doc1" [Insert (str "Hello")] 1
             (reachable_createDocument _ "doc1" "text" [] reachable_new)). }
  split; [done|]. apply (reachable_consistent _ Hr).
Defined.

Lemma getHistory_range_witness :
  MemoryBackend.history (Server.backend test_server_1) !! "doc1"
    = Some [[Insert (str "Hello")]] ∧
  (0 ≤ 0 ≤ 1)%Z ∧
  ∃ ops, MemoryBackend.getHistory "doc1" 0 (Some 1%Z) (Server.backend test_server_1)
           = (Server.backend test_server_1, Ok ops) ∧
         ∀ i : nat, ops !! i =
           if bool_decide (Z.of_nat i < 1 - 0)%Z
           then [[Insert (str "Hello")]] !! (Z.to_nat 0 + i) else None.
Proof.
  assert (MemoryBackend.history (Server.backend test_server_1) !! "doc1"
          = Some [[Insert (str "Hello")]]) as Hlog by reflexivity.
  assert (0 ≤ 0 ≤ 1)%Z as Hse by done.
  split; [exact Hlog|]. split; [exact Hse|].
  apply (getHistory_range _ "doc1" 0 1 _ Hlog Hse).
Defined.

Lemma saveOperation_getHistory_witness :
  MemoryBackend.documents (Server.backend test_server_1) !! "doc1"
    = Some {| type := "text"; v := 1; data := [] |} ∧
  MemoryBackend.history (Server.backend test_server_1) !! "doc1"
    = Some [[Insert (str "Hello")]] ∧
  ∃ b', MemoryBackend.saveOperation "doc1" [Retain 5; Insert (str "!")] 2
          (Server.backend test_server_1) = (b', Ok tt) ∧
        MemoryBackend.getRecord "doc1" b'
          = (b', Ok {| type := "text"; v := 2; data := [] |}) ∧
        MemoryBackend.getHistory "doc1" 1 None b' = (b', Ok [[Retain 5; Insert (str "!")]]) ∧
        MemoryBackend.getHistory "doc1" 0 None b'
          = (b', Ok [[Insert (str "Hello")]; [Retain 5; Insert (str "!")]]).
Proof.
  assert (MemoryBackend.documents (Server.backend test_server_1) !! "doc1"
          = Some {| type := "text"; v := 1; data := [] |}) as Hdoc by reflexivity.
  assert (MemoryBackend.history (Server.backend test_server_1) !! "doc1"
          = Some [[Insert (str "Hello")]]) as Hlog by reflexivity.
  split_and!; [done|done|].
  exact (saveOperation_getHistory _ "doc1" [Retain 5; Insert (str "!")] _ _
           Hdoc Hlog eq_refl).
Defined.

Lemma unknown_document_witness :
  MemoryBackend.documents (Server.backend test_server) !! "doc2" = None ∧
  MemoryBackend.getRecord "doc2" (Server.backend test_server)
    = (Server.backend test_server, Err DocumentNotFound) ∧
  MemoryBackend.saveOperation "doc2" [Insert (str "Hello")] 1 (Server.backend test_server)
    = (Server.backend test_server, Err DocumentNotFound) ∧
  Server.submitOperation "doc2" [Insert (str "Hello")] 0 test_server
    = (test_server, Err DocumentNotFound).
Proof.
  assert (MemoryBackend.documents (Server.backend test_server) !! "doc2" = None)
    as Hdoc by reflexivity.
  split; [done|].
  apply (unknown_document test_server "doc2" [Insert (str "Hello")] 1 0 Hdoc).
Defined.

Lemma submitOperation_consistent_witness :
  consistent (Server.backend test_server) ∧
  consistent (Server.backend
                (Server.submitOperation "doc1" [Insert (str "Hello")] 0 test_server).1) ∧
  Server.types (Server.submitOperation "doc1" [Insert (str "Hello")] 0 test_server).1
    = Server.types test_server.
Proof.
  assert (consistent (Server.backend test_server)) as Hb.
  { exact (consistent_createDocument _ "doc1" "text" [] consistent_new). }
  split; [done|].
  apply (submitOperation_consistent test_server "doc1" [Insert (str "Hello")] 0 Hb).
Defined.

Lemma submitOperation_replayable_witness :
  MemoryBackend.documents (Server.backend test_server_1) !! "doc1"
    = Some {| type := "text"; v := 1; data := [] |} ∧
  MemoryBackend.history (Server.backend test_server_1) !! "doc1"
    = Some [[Insert (str "Hello")]] ∧
  Server.types test_server_1 !! "text" = Some TextType.OT ∧
  Forall sized [[Insert (str "Hello")]] ∧ sized [Insert (str "World")] ∧
  replay TextType.OT [] (take (Z.to_nat 0) [[Insert (str "Hello")]]) = Ok (str "") ∧
  replay TextType.OT [] [[Insert (str "Hello")]] = Ok (str "Hello") ∧
  TextType.apply (str "") [Insert (str "World")] = Ok (str "World") ∧
  ∃ op' srv' r,
    Server.submitOperation "doc1" [Insert (str "World")] 0 test_server_1
      = (srv', Ok {| Server.op := op'; Server.revision := 2 |}) ∧
    MemoryBackend.history (Server.backend srv') !! "doc1"
      = Some ([[Insert (str "Hello")]] ++ [op']) ∧
    sized op' ∧
    TextType.apply (str "Hello") op' = Ok r ∧
    replay TextType.OT [] ([[Insert (str "Hello")]] ++ [op']) = Ok r.
Proof.
  assert (MemoryBackend.documents (Server.backend test_server_1) !! "doc1"
          = Some {| type := "text"; v := 1; data := [] |}) as Hdoc by reflexivity.
  assert (MemoryBackend.history (Server.backend test_server_1) !! "doc1"
          = Some [[Insert (str "Hello")]]) as Hlog by reflexivity.
  assert (Server.types test_server_1 !! "text" = Some TextType.OT) as Hty by reflexivity.
  assert (Forall sized [[Insert (str "Hello")]]) as Hh by (repeat constructor; done).
  assert (sized [Insert (str "World")]) as Hop by (repeat constructor; done).
  assert (0 ≤ 0 ≤ 1)%Z as Hrev by done.
  split_and!; [done|done|done|done|done|reflexivity|reflexivity|reflexivity|].
  exact (submitOperation_replayable test_server_1 "doc1" [Insert (str "World")] 0 _ _
           (str "") (str "Hello") (str "World")
           Hdoc Hlog eq_refl Hty Hrev Hh Hop eq_refl eq_refl eq_refl).
Defined.

Lemma concurrent_submissions_witness :
  MemoryBackend.documents (Server.backend test_server) !! "doc1"
    = Some {| type := "text"; v := 0; data := [] |} ∧
  MemoryBackend.history (Server.backend test_server) !! "doc1" = Some [] ∧
  Server.types test_server !! "text" = Some TextType.OT ∧
  sized [Insert (str "Hello")] ∧ sized [Insert (str "World")] ∧
  TextType.apply (str "") [Insert (str "Hello")] = Ok (str "Hello") ∧
  TextType.apply (str "") [Insert (str "World")] = Ok (str "World") ∧
  ∃ a' b' r srv1 srv2,
    Server.submitOperation "doc1" [Insert (str "Hello")] 0 test_server
      = (srv1, Ok {| Server.op := [Insert (str "Hello")]; Server.revision := 1 |}) ∧
    Server.submitOperation "doc1" [Insert (str "World")] 0 srv1
      = (srv2, Ok {| Server.op := b'; Server.revision := 2 |}) ∧
    MemoryBackend.history (Server.backend srv2) !! "doc1"
      = Some ([] ++ [[Insert (str "Hello")]; b']) ∧
    TextType.transform [Insert (str "World")] [Insert (str "Hello")] Right = Ok b' ∧
    TextType.transform [Insert (str "Hello")] [Insert (str "World")] Left = Ok a' ∧
    TextType.apply (str "Hello") b' = Ok r ∧
    TextType.apply (str "World") a' = Ok r.
Proof.
  assert (MemoryBackend.documents (Server.backend test_server) !! "doc1"
          = Some {| type := "text"; v := 0; data := [] |}) as Hdoc by reflexivity.
  assert (MemoryBackend.history (Server.backend test_server) !! "doc1" = Some [])
    as Hlog by reflexivity.
  assert (Server.types test_server !! "text" = Some TextType.OT) as Hty by reflexivity.
  assert (sized [Insert (str "Hello")]) as Ha by (repeat constructor; done).
  assert (sized [Insert (str "World")]) as Hb by (repeat constructor; done).
  split_and!; [done|done|done|done|done|reflexivity|reflexivity|].
  exact (concurrent_submissions test_server "doc1" _ _ _ _ (str "") (str "Hello") (str "World")
           Hdoc Hlog eq_refl Hty Ha Hb eq_refl eq_refl).
Defined.
